(** * lcm_mimic.py: the sentence pipeline, embedded and verified

    The script segments a paragraph into sentences, embeds them, links the
    sentences that share a noun, flags the ones with a cause marker, stores
    the paragraph in a one-key dictionary, quantizes the embeddings to
    [uint8] and assembles the final record.

    The three outside services (spaCy's segmenter and tagger, the sentence
    encoder) are parameters of the development; everything the script itself
    computes is a definition below, in the order of the script. *)

From Stdlib Require Import ZArith QArith Qminmax Qround Lia Ascii String.
From Stdlib Require SpecFloat.
From stdpp Require Import base list gmap sets strings sorting.

(** ** Step 6: quantization (lines 116-121)

    A component is a rational number: every finite value of a binary
    floating-point format is one, and the arithmetic of line 119 is taken
    exactly. *)
Module Quantizer.
#[local] Open Scope Z_scope.

(** [scaled = 127.5 * (vec + 1.0)], per component. *)
Definition scaled (v : Q) : Q := ((1275 # 10) * (v + 1))%Q.

(** [np.clip(x, lo, hi)] is [minimum(maximum(x, lo), hi)]. *)
Definition clip (x lo hi : Q) : Q := Qmin (Qmax x lo) hi.

(** [astype(np.uint8)] drops the fractional part (towards zero) and keeps
    the low eight bits. *)
Definition Qtrunc (x : Q) : Z := Z.quot (Qnum x) (Z.pos (Qden x)).
Definition astype_uint8 (x : Q) : Z := (Qtrunc x) mod 256.

(** [quantized = np.clip(scaled, 0, 255).astype(np.uint8)] *)
Definition quantize (v : Q) : Z := astype_uint8 (clip (scaled v) 0 255).

(** The loop of lines 117-121, one row per sentence. *)
Definition quantize_vec (vec : list Q) : list Z := map quantize vec.
Definition quantized_embeddings (sentence_embeddings : list (list Q))
  : list (list Z) :=
  foldl (fun acc vec => acc ++ [quantize_vec vec]) [] sentence_embeddings.


End Quantizer.

(** ** Text: the [str] methods the script calls

    A character is a code point below 256; [isspace] and [lower] follow
    Python's tables on that range. *)
Module Text.

(** [c.isspace()]: TAB..CR, FS..US, space, NEL and NBSP. *)
Definition isspace (c : ascii) : bool :=
  let n := nat_of_ascii c in
  ((9 <=? n) && (n <=? 13) || (28 <=? n) && (n <=? 32)
   || (n =? 133) || (n =? 160))%nat.

Fixpoint lstrip (s : string) : string :=
  match s with
  | EmptyString => EmptyString
  | String c s' => if isspace c then lstrip s' else s
  end.

Fixpoint rstrip (s : string) : string :=
  match s with
  | EmptyString => EmptyString
  | String c s' =>
      match rstrip s' with
      | EmptyString => if isspace c then EmptyString else String c EmptyString
      | r => String c r
      end
  end.

(** [s.strip()] *)
Definition strip (s : string) : string := rstrip (lstrip s).

(** [c.lower()]: A..Z and the Latin-1 capitals (all of 192..222 but the
    multiplication sign) move up by 32. *)
Definition lower_char (c : ascii) : ascii :=
  let n := nat_of_ascii c in
  if ((65 <=? n) && (n <=? 90)
      || (192 <=? n) && (n <=? 222) && negb (n =? 215))%nat
  then ascii_of_nat (n + 32) else c.

(** [s.lower()] *)
Fixpoint lower (s : string) : string :=
  match s with
  | EmptyString => EmptyString
  | String c s' => String (lower_char c) (lower s')
  end.

(** [s.startswith(p)] *)
Fixpoint startswith (p s : string) : bool :=
  match p, s with
  | EmptyString, _ => true
  | String a p', String b s' => if decide (a = b) then startswith p' s' else false
  | String _ _, EmptyString => false
  end.

(** [needle in hay] *)
Fixpoint contains (needle hay : string) : bool :=
  startswith needle hay ||
  match hay with
  | EmptyString => false
  | String _ hay' => contains needle hay'
  end.

(** Truth value of a [str]: non-empty. *)
Definition truthy (s : string) : bool :=
  match s with EmptyString => false | String _ _ => true end.

(** [enumerate(l)] *)
Definition enumerate {A} (l : list A) : list (nat * A) :=
  zip (seq 0 (length l)) l.

End Text.

(** ** networkx: the part of [nx.Graph] the script uses

    A graph keeps its nodes in insertion order, a text label per node and,
    per node, its neighbours in insertion order (the keys of the inner
    adjacency dictionary). *)
Module Nx.

Record Graph := mkGraph {
  g_order : list nat;
  g_text : gmap nat string;
  g_adj : gmap nat (list nat)
}.

(** [nx.Graph()] *)
Definition new_graph : Graph := mkGraph [] ∅ ∅.

(** [G.adj[u]], as the list of its keys. *)
Definition nbrs (G : Graph) (u : nat) : list nat := default [] (g_adj G !! u).

(** [G.add_node(n, text=s)] *)
Definition add_node (n : nat) (s : string) (G : Graph) : Graph :=
  if decide (n ∈ g_order G)
  then mkGraph (g_order G) (<[n:=s]> (g_text G)) (g_adj G)
  else mkGraph (g_order G ++ [n]) (<[n:=s]> (g_text G)) (<[n:=[]]> (g_adj G)).

(** What [add_edge] does to an endpoint that is not a node yet. *)
Definition touch (n : nat) (G : Graph) : Graph :=
  if decide (n ∈ g_order G) then G
  else mkGraph (g_order G ++ [n]) (g_text G) (<[n:=[]]> (g_adj G)).

(** [G._adj[u][v] = datadict]: a new key goes last, an old one stays. *)
Definition link (u v : nat) (G : Graph) : Graph :=
  mkGraph (g_order G) (g_text G)
    (<[u := if decide (v ∈ nbrs G u) then nbrs G u else nbrs G u ++ [v]]>
       (g_adj G)).

(** [G.add_edge(u, v)] *)
Definition add_edge (u v : nat) (G : Graph) : Graph :=
  link v u (link u v (touch v (touch u G))).

(** The iteration of [G.edges]: every node in order, every neighbour of it
    that has not been a source yet. *)
Fixpoint edges_from (G : Graph) (seen : gset nat) (ns : list nat)
  : list (nat * nat) :=
  match ns with
  | [] => []
  | n :: ns' =>
      map (pair n) (filter (fun nbr => nbr ∉ seen) (nbrs G n))
      ++ edges_from G ({[n]} ∪ seen) ns'
  end.

(** [list(G.edges)] *)
Definition edges (G : Graph) : list (nat * nat) := edges_from G ∅ (g_order G).

End Nx.

(** ** Step 5: the memory dictionary (lines 103-105, 139) *)
Module Memory.

Definition memory_key : string := "paragraph_context".

(** [memory_store[key] = value] *)
Definition store (key value : string) (m : gmap string string)
  : gmap string string := <[key := value]> m.

(** [memory_store.get(key, "")] *)
Definition fetch (key : string) (m : gmap string string) : string :=
  default "" (m !! key).

End Memory.

(** ** Errors: the one exception the script can raise by itself *)
Inductive exn := IndexError.

Inductive result (A : Type) :=
| Ok (a : A)
| Raise (e : exn).
Arguments Ok {A} a.
Arguments Raise {A} e.

#[global] Instance result_ret : MRet result := @Ok.
#[global] Instance result_bind : MBind result := fun A B k r =>
  match r with Ok a => k a | Raise e => Raise e end.

(** [l[i]] for [i >= 0] *)
Definition getitem {A} (l : list A) (i : nat) : result A :=
  match l !! i with Some x => Ok x | None => Raise IndexError end.

(** A spaCy token, as far as the script reads it. *)
Record Token := mkToken { lemma_ : string; pos_ : string }.

(** A numpy array of rows, as far as the script reads it: its [shape]
    tuple and the rows that iterating over it yields. *)
Record ndarray := mkArray { shape : list nat; data : list (list Q) }.

(** The dictionary of lines 135-141. *)
Record StructuredOutput := mkOutput {
  segmented_sentences : list string;
  cause_effect_sentences : list string;
  graph_edges : list (nat * nat);
  memory_reference : string;
  quantized_embeddings_preview : list Z
}.

(** ** The script, over its three services *)
Section Pipeline.

(** [sents text]: the texts of [nlp(text).sents], in order. *)
Variable sents : string -> list string.
(** [tokens text]: the tokens of [nlp(text)], in order. *)
Variable tokens : string -> list Token.
(** [encode ss]: the array [model.encode(ss)]. *)
Variable encode : list string -> ndarray.

(** Lines 44-45. *)
Definition sentences (paragraph : string) : list string :=
  filter (fun text => Text.truthy (Text.strip text) = true)
         (sents (Text.strip paragraph)).

(** Lines 73-74: the lowercased lemmas of the nouns of a sentence. *)
Definition nouns (text : string) : gset string :=
  list_to_set
    (map (fun t => Text.lower (lemma_ t))
         (filter (fun t => pos_ t = "NOUN") (tokens text))).

(** Lines 66-67. *)
Definition add_nodes (ss : list string) (G : Nx.Graph) : Nx.Graph :=
  foldl (fun G '(i, s) => Nx.add_node i s G) G (Text.enumerate ss).

(** Lines 72-77, the body of the inner loop. The subscripts stay below
    [len(sentences)], so they never raise. *)
Definition connect (ss : list string) (i j : nat) (G : Nx.Graph) : Nx.Graph :=
  let nouns_i := nouns (ss !!! i) in
  let nouns_j := nouns (ss !!! j) in
  if decide (nouns_i ∩ nouns_j ≠ ∅) then Nx.add_edge i j G else G.

(** Lines 70-77. *)
Definition add_edges (ss : list string) (G : Nx.Graph) : Nx.Graph :=
  let n := length ss in
  foldl (fun G i =>
           foldl (fun G j => connect ss i j G) G (seq (S i) (n - S i)))
        G (seq 0 n).

(** Lines 64-77. *)
Definition relation_graph (ss : list string) : Nx.Graph :=
  add_edges ss (add_nodes ss Nx.new_graph).

(** Lines 87-90. *)
Definition cause_effect_pairs (ss : list string) : list (nat * string) :=
  foldl (fun acc '(i, s) =>
           if Text.contains "because" (Text.lower s)
           then acc ++ [(i, s)] else acc)
        [] (Text.enumerate ss).

(** Lines 103-105. *)
Definition memory_store (paragraph : string) : gmap string string :=
  Memory.store Memory.memory_key (Text.strip paragraph) ∅.

(** The whole run. The prints are left out, but for the subscript
    [sentence_embeddings.shape[1]] that line 58 evaluates for its print. *)
Definition run (paragraph : string) : result StructuredOutput :=
  let ss := sentences paragraph in
  let sentence_embeddings := encode ss in
  _ ← getitem (shape sentence_embeddings) 1;
  let G := relation_graph ss in
  let pairs := cause_effect_pairs ss in
  let mem := memory_store paragraph in
  let quantized := Quantizer.quantized_embeddings (data sentence_embeddings) in
  first ← getitem quantized 0;
  Ok (mkOutput ss
        (map snd pairs)
        (Nx.edges G)
        (Memory.fetch Memory.memory_key mem)
        (take 10 first)).

End Pipeline.

(** ** Vocabulary of the statements *)

(** The characters of a string, in order. *)
Fixpoint chars (s : string) : list ascii :=
  match s with EmptyString => [] | String c s' => c :: chars s' end.

(** A string made of whitespace only (the empty string included). *)
Definition blank (s : string) : Prop :=
  Forall (fun c => Text.isspace c = true) (chars s).

(** A string that [strip] leaves alone. *)
Definition trimmed (s : string) : Prop := Text.strip s = s.

(** What the adjacency dictionaries satisfy all along: only nodes have
    neighbours, and no neighbour is listed twice. *)
Record graph_ok (G : Nx.Graph) : Prop := {
  ok_absent : forall n, n ∉ Nx.g_order G -> Nx.nbrs G n = [];
  ok_nodup : forall n, NoDup (Nx.nbrs G n)
}.

(** [adds ns R G G']: [G'] has the nodes [ns] and the adjacency of [G] plus
    the pairs of [R], in both directions. *)
Definition adds (ns : list nat) (R : nat -> nat -> Prop) (G G' : Nx.Graph)
  : Prop :=
  (graph_ok G' /\ Nx.g_order G' = ns)
  /\ forall w x, x ∈ Nx.nbrs G' w <-> x ∈ Nx.nbrs G w \/ R w x \/ R x w.

(** Sentences [i] and [j] have a noun in common. *)
Definition share (tokens : string -> list Token) (ss : list string)
    (i j : nat) : Prop :=
  nouns tokens (ss !!! i) ∩ nouns tokens (ss !!! j) ≠ ∅.

(** An array of [n] rows of [D] components each. *)
Definition well_shaped (n D : nat) (E : ndarray) : Prop :=
  shape E = [n; D]
  /\ length (data E) = n
  /\ Forall (fun row => length row = D) (data E).

(** A line feed. *)
Definition LF : string := String "010"%char EmptyString.

(** A toy tagger for the examples: every word of the two sentences of the
    specification's scenario, nothing for any other text. *)
Definition toy_tokens (text : string) : list Token :=
  if decide (text = "Cats sit on mats.")
  then [mkToken "cat" "NOUN"; mkToken "sit" "VERB"; mkToken "on" "ADP";
        mkToken "Mat" "NOUN"; mkToken "." "PUNCT"]
  else if decide (text = "Mats are soft.")
  then [mkToken "mat" "NOUN"; mkToken "be" "AUX"; mkToken "soft" "ADJ";
        mkToken "." "PUNCT"]
  else [].

(** Services for the examples: a segmenter that always emits the two
    sentences of the scenario, one that emits nothing, one that leaves a
    line feed at the end of its first sentence, and an encoder that gives
    every sentence the same row of twelve components (and, for no sentence
    at all, the empty one-dimensional array that [np.asarray([])] is). *)
Definition toy_sents (text : string) : list string :=
  ["Cats sit on mats."; "Mats are soft."].

Definition no_sents (text : string) : list string := [].

Definition ragged_sents (text : string) : list string :=
  ["Hi." +:+ LF; "   "; "Bye."].

Definition toy_row : list Q :=
  [-1; 0; 1; 1 # 2; -(1 # 2); 3; -3; 1 # 4; 9 # 10; -(9 # 10); 1 # 3; 2 # 3]%Q.

Definition toy_encode (ss : list string) : ndarray :=
  match ss with
  | [] => mkArray [0] []
  | _ => mkArray [length ss; 12] (map (fun _ => toy_row) ss)
  end.

(** ** The same computation under rounding

    A floating-point format rounds the result of every operation. The
    quantizer over an arbitrary rounding [rnd] of the sum and of the
    product of line 119; [quantize] is the case where [rnd] changes
    nothing. *)
Section Rounded.
Variable rnd : Q -> Q.

Definition scaled_rnd (v : Q) : Q := rnd ((1275 # 10) * rnd (v + 1))%Q.

Definition quantize_rnd (v : Q) : Z :=
  Quantizer.astype_uint8 (Quantizer.clip (scaled_rnd v) 0 255).

End Rounded.

(** ** Line 119-120 in IEEE binary32

    The encoder of the script returns [float32] rows; the operations below
    are those of the Standard Library's executable IEEE model at precision
    24. Used for evaluating single components only. *)
Module Binary32.
#[local] Open Scope Z_scope.

Definition prec : Z := 24.
Definition emax : Z := 128.

(** The binary32 value nearest to [m * 2^e]. *)
Definition of_Z (m e : Z) : SpecFloat.spec_float :=
  SpecFloat.binary_normalize prec emax m e false.

Definition is_nan (x : SpecFloat.spec_float) : bool :=
  match x with SpecFloat.S754_nan => true | _ => false end.

(** [np.maximum] and [np.minimum]: a NaN operand is the result. *)
Definition maximum (x y : SpecFloat.spec_float) : SpecFloat.spec_float :=
  if is_nan x then x else if is_nan y then y
  else if SpecFloat.SFltb x y then y else x.

Definition minimum (x y : SpecFloat.spec_float) : SpecFloat.spec_float :=
  if is_nan x then x else if is_nan y then y
  else if SpecFloat.SFltb y x then y else x.

Definition clip (x lo hi : SpecFloat.spec_float) : SpecFloat.spec_float :=
  minimum (maximum x lo) hi.

(** [astype(np.uint8)]: the integer part, towards zero, on eight bits;
    numpy leaves the cast of NaN and of the infinities unspecified. *)
Definition astype_uint8 (x : SpecFloat.spec_float) : option Z :=
  match x with
  | SpecFloat.S754_zero _ => Some 0
  | SpecFloat.S754_finite s m e =>
      let n := if 0 <=? e then Z.shiftl (Z.pos m) e
               else Z.shiftr (Z.pos m) (- e) in
      Some ((if s then - n else n) mod 256)
  | _ => None
  end.

Definition scaled (v : SpecFloat.spec_float) : SpecFloat.spec_float :=
  SpecFloat.SFmul prec emax (of_Z 255 (-1))
    (SpecFloat.SFadd prec emax v (of_Z 1 0)).

Definition quantize (v : SpecFloat.spec_float) : option Z :=
  astype_uint8 (clip (scaled v) (of_Z 0 0) (of_Z 255 0)).

End Binary32.

(** ** Vocabulary of the further statements *)

(** Every neighbour list is in ascending order. *)
Definition adj_sorted (G : Nx.Graph) : Prop :=
  forall u, StronglySorted lt (Nx.nbrs G u).

(** The inner loop of lines 71-77 after its first [k] rounds, and the outer
    loop of line 70 after its first [m] rounds. *)
Definition loop_inner (tokens : string -> list Token) (ss : list string)
    (i k : nat) (G : Nx.Graph) : Nx.Graph :=
  foldl (fun G j => connect tokens ss i j G) G (seq (S i) k).

Definition loop_outer (tokens : string -> list Token) (ss : list string)
    (m : nat) (G : Nx.Graph) : Nx.Graph :=
  foldl (fun G i => loop_inner tokens ss i (length ss - S i) G) G (seq 0 m).

(** The order of the pairs the nested loops go through. *)
Definition lex_lt (p q : nat * nat) : Prop :=
  p.1 < q.1 \/ (p.1 = q.1 /\ p.2 < q.2).

(** The pairs (i, j), i < j, of sentences with a common noun, in the order
    of the nested loops. *)
Definition sharing_pairs (tokens : string -> list Token) (ss : list string)
  : list (nat * nat) :=
  i ← seq 0 (length ss);
  pair i <$> filter (fun j => share tokens ss i j) (seq (S i) (length ss - S i)).


(** A second toy tagger: the same nouns as [toy_tokens], in capitals and
    among other tokens. *)
Definition toy_tokens2 (text : string) : list Token :=
  if decide (text = "Cats sit on mats.")
  then [mkToken "MAT" "NOUN"; mkToken "the" "DET"; mkToken "Cat" "NOUN"]
  else if decide (text = "Mats are soft.")
  then [mkToken "soft" "ADJ"; mkToken "Mat" "NOUN"; mkToken "mat" "NOUN"]
  else [].

(** A rounding for the examples: down to a multiple of 1/1024. *)
Definition round_grid (x : Q) : Q := (inject_Z (Qfloor (x * 1024)) / 1024)%Q.

(** * Proofs *)

Import Quantizer Text Nx Memory.

(** ** Quantizer *)

Section QuantizerFacts.
#[local] Open Scope Z_scope.

Lemma clip_bounds x : (0 <= clip x 0 255 <= 255)%Q.
Proof.
unfold clip. split.
- apply Q.min_glb; [apply Q.le_max_r | discriminate].
- apply Q.le_min_r.
Qed.

Lemma clip_mono x y : (x <= y)%Q -> (clip x 0 255 <= clip y 0 255)%Q.
Proof.
intros H. unfold clip.
apply Q.min_le_compat_r, Q.max_le_compat_r, H.
Qed.

Lemma Qtrunc_nonneg x : (0 <= x)%Q -> Qtrunc x = Qfloor x.
Proof.
destruct x as [n d]. unfold Qle, Qtrunc, Qfloor. simpl. intros H.
apply Z.quot_div_nonneg; lia.
Qed.

Lemma Qfloor_clip_range x : 0 <= Qfloor (clip x 0 255) <= 255.
Proof.
destruct (clip_bounds x) as [Hlo Hhi]. split.
- change 0 with (Qfloor (inject_Z 0)). apply Qfloor_resp_le. exact Hlo.
- change 255 with (Qfloor (inject_Z 255)). apply Qfloor_resp_le. exact Hhi.
Qed.

Lemma astype_uint8_clip x : astype_uint8 (clip x 0 255) = Qfloor (clip x 0 255).
Proof.
unfold astype_uint8. rewrite Qtrunc_nonneg by apply clip_bounds.
apply Z.mod_small. pose proof (Qfloor_clip_range x). lia.
Qed.

Lemma quantize_floor v : quantize v = Qfloor (clip (scaled v) 0 255).
Proof. apply astype_uint8_clip. Qed.

Lemma quantize_range v : 0 <= quantize v <= 255.
Proof. rewrite quantize_floor. apply Qfloor_clip_range. Qed.






Lemma scaled_mono v1 v2 : (v1 <= v2)%Q -> (scaled v1 <= scaled v2)%Q.
Proof.
intros H. unfold scaled.
apply Qmult_le_l; [reflexivity |].
apply Qplus_le_l, H.
Qed.

Lemma quantize_mono v1 v2 : (v1 <= v2)%Q -> quantize v1 <= quantize v2.
Proof.
intros H. rewrite !quantize_floor.
apply Qfloor_resp_le, clip_mono, scaled_mono, H.
Qed.





End QuantizerFacts.

(** ** Text *)

Lemma lstrip_empty s : lstrip s = "" <-> blank s.
Proof.
  unfold blank. induction s as [|c s IH]; simpl.
  - split; [constructor | done].
  - destruct (isspace c) eqn:Hc.
    + rewrite IH. split; [by constructor | by inversion 1].
    + split; [done | inversion 1; congruence].
Qed.

Lemma rstrip_empty s : rstrip s = "" <-> blank s.
Proof.
  unfold blank. induction s as [|c s IH]; simpl.
  - split; [constructor | done].
  - destruct (rstrip s) eqn:Hr.
    + destruct (isspace c) eqn:Hc.
      * split; [intros _; constructor; [done | by apply IH] | done].
      * split; [done | inversion 1; congruence].
    + split; [done |]. inversion 1 as [|? ? ? Hs]; subst.
      apply IH in Hs. done.
Qed.

Lemma lstrip_blank s : blank (lstrip s) <-> blank s.
Proof.
  unfold blank. induction s as [|c s IH]; simpl; [done |].
  destruct (isspace c) eqn:Hc; [| done].
  rewrite IH. split; [by constructor | by inversion 1].
Qed.

Lemma strip_empty s : strip s = "" <-> blank s.
Proof. unfold strip. by rewrite rstrip_empty, lstrip_blank. Qed.

Lemma truthy_true s : truthy s = true <-> s <> "".
Proof. destruct s; simpl; split; done. Qed.




Lemma truthy_strip s :
  truthy (strip s) = true <-> exists c, c ∈ chars s /\ isspace c = false.
Proof.
  rewrite truthy_true, strip_empty. unfold blank. split.
  - intros H. apply not_Forall_Exists in H; [| intros c; apply _].
    apply Exists_exists in H as (c & Hc & Hsp). exists c. split; [done |].
    simpl in Hsp. by destruct (isspace c).
  - intros (c & Hc & Hsp) Hall. rewrite Forall_forall in Hall.
    specialize (Hall c Hc). congruence.
Qed.

Lemma append_cons c s t : String c s +:+ t = String c (s +:+ t).
Proof. reflexivity. Qed.

Lemma startswith_spec p s : startswith p s = true <-> exists q, s = p +:+ q.
Proof.
  revert s. induction p as [|a p IH]; intros s; simpl.
  - split; [intros _; by exists s | done].
  - destruct s as [|b s].
    + split; [done | intros [q Hq]; discriminate].
    + setoid_rewrite append_cons.
      destruct (decide (a = b)) as [->|Hab].
      * rewrite IH. split; intros [q Hq]; exists q; congruence.
      * split; [done | intros [q Hq]; congruence].
Qed.

Lemma contains_spec needle hay :
  contains needle hay = true <-> exists p q, hay = p +:+ needle +:+ q.
Proof.
  induction hay as [|c hay IH].
  - simpl. rewrite orb_false_r, startswith_spec. split.
    + intros [q Hq]. by exists "", q.
    + intros (p & q & Hpq). destruct p; [by exists q | discriminate].
  - cbn [contains]. rewrite orb_true_iff, startswith_spec, IH. split.
    + intros [[q Hq] | (p & q & Hpq)].
      * by exists "", q.
      * exists (String c p), q. rewrite append_cons. by rewrite Hpq.
    + intros (p & q & Hpq). destruct p as [|c' p].
      * left. by exists q.
      * right. exists p, q. rewrite append_cons in Hpq. congruence.
Qed.

Lemma elem_of_enumerate {A} (l : list A) i x :
  (i, x) ∈ enumerate l <-> l !! i = Some x.
Proof.
  unfold enumerate. rewrite list_elem_of_lookup. split.
  - intros [k Hk]. apply lookup_zip_Some in Hk as [Hi Hx].
    apply lookup_seq in Hi as [-> _]. done.
  - intros Hx. exists i. apply lookup_zip_Some. split; [| done].
    apply lookup_seq. split; [done |]. by eapply lookup_lt_Some.
Qed.

Lemma fst_enumerate {A} (l : list A) : (enumerate l).*1 = seq 0 (length l).
Proof. unfold enumerate. apply fst_zip. by rewrite length_seq. Qed.

Lemma StronglySorted_lt_seq j n : StronglySorted lt (seq j n).
Proof.
  revert j. induction n as [|n IH]; intros j; simpl; constructor; [apply IH |].
  apply Forall_forall. intros k Hk. apply elem_of_seq in Hk. lia.
Qed.

Lemma StronglySorted_sublist {A} (R : A -> A -> Prop) l k :
  sublist l k -> StronglySorted R k -> StronglySorted R l.
Proof.
  induction 1 as [|x l k Hs IH|x l k Hs IH]; intros Hk.
  - done.
  - apply StronglySorted_inv in Hk as [Hk Hx]. constructor; [by apply IH |].
    eapply Forall_forall. intros y Hy. rewrite Forall_forall in Hx.
    apply Hx. by eapply elem_of_sublist.
  - apply StronglySorted_inv in Hk as [Hk _]. by apply IH.
Qed.

Lemma foldl_ext {A B} (f g : A -> B -> A) (a : A) (l : list B) :
  (forall a x, f a x = g a x) -> foldl f a l = foldl g a l.
Proof.
  intros Hfg. revert a. induction l as [|x l IH]; intros a; simpl; [done |].
  by rewrite Hfg, IH.
Qed.

Lemma foldl_collect {A} (P : A -> bool) (l acc : list A) :
  foldl (fun acc x => if P x then acc ++ [x] else acc) acc l
  = acc ++ filter (fun x => P x = true) l.
Proof.
  revert acc. induction l as [|x l IH]; intros acc; simpl.
  - by rewrite app_nil_r.
  - rewrite IH. rewrite filter_cons. destruct (P x) eqn:HP.
    + rewrite decide_True by done. by rewrite <- app_assoc.
    + rewrite decide_False by congruence. done.
Qed.


(** ** networkx graphs *)

Lemma new_graph_ok : graph_ok new_graph.
Proof. split; intros n; unfold nbrs; simpl; rewrite ?lookup_empty; by try constructor. Qed.

Lemma nbrs_new_graph n : nbrs new_graph n = [].
Proof. unfold nbrs. simpl. by rewrite lookup_empty. Qed.

Lemma nbrs_link u v G w :
  nbrs (link u v G) w =
  if decide (w = u)
  then (if decide (v ∈ nbrs G u) then nbrs G u else nbrs G u ++ [v])
  else nbrs G w.
Proof.
  unfold nbrs at 1, link. simpl. destruct (decide (w = u)) as [->|Hne].
  - by rewrite lookup_insert_eq.
  - by rewrite lookup_insert_ne.
Qed.

Lemma elem_of_nbrs_link u v G w x :
  x ∈ nbrs (link u v G) w <-> x ∈ nbrs G w \/ (w = u /\ x = v).
Proof.
  rewrite nbrs_link. destruct (decide (w = u)) as [->|Hne]; [| tauto].
  destruct (decide (v ∈ nbrs G u)).
  - split; [tauto | intros [H | [_ ->]]; done].
  - rewrite elem_of_app, list_elem_of_singleton. tauto.
Qed.

Lemma link_ok u v G : u ∈ g_order G -> graph_ok G -> graph_ok (link u v G).
Proof.
  intros Hu [Habs Hnd]. split; intros n.
  - simpl. intros Hn. rewrite nbrs_link.
    destruct (decide (n = u)) as [->|]; [done | by apply Habs].
  - rewrite nbrs_link. destruct (decide (n = u)) as [->|]; [| done].
    destruct (decide (v ∈ nbrs G u)); [done |].
    apply NoDup_app. split; [done |]. split; [| apply NoDup_singleton].
    intros x Hx Hx'. apply list_elem_of_singleton in Hx'. by subst.
Qed.

Lemma touch_order n G : n ∈ g_order G -> touch n G = G.
Proof. intros Hn. unfold touch. by rewrite decide_True. Qed.

Lemma elem_of_touch_order n G : n ∈ g_order (touch n G).
Proof.
  unfold touch. destruct (decide (n ∈ g_order G)); simpl; [done |].
  apply elem_of_app. right. by apply list_elem_of_singleton.
Qed.

Lemma add_edge_ok u v G :
  u ∈ g_order G -> v ∈ g_order G -> graph_ok G -> graph_ok (add_edge u v G).
Proof.
  intros Hu Hv HG. unfold add_edge. rewrite (touch_order u G Hu), (touch_order v G Hv).
  apply link_ok; [done |]. by apply link_ok.
Qed.

Lemma add_edge_order u v G :
  u ∈ g_order G -> v ∈ g_order G -> g_order (add_edge u v G) = g_order G.
Proof. intros Hu Hv. unfold add_edge. by rewrite (touch_order u G Hu), (touch_order v G Hv). Qed.

Lemma elem_of_nbrs_add_edge u v G w x :
  u ∈ g_order G -> v ∈ g_order G ->
  x ∈ nbrs (add_edge u v G) w <->
  x ∈ nbrs G w \/ (w = u /\ x = v) \/ (w = v /\ x = u).
Proof.
  intros Hu Hv. unfold add_edge. rewrite (touch_order u G Hu), (touch_order v G Hv).
  rewrite !elem_of_nbrs_link. tauto.
Qed.

Lemma add_node_order n s G :
  n ∉ g_order G -> g_order (add_node n s G) = g_order G ++ [n].
Proof. intros Hn. unfold add_node. by rewrite decide_False. Qed.

Lemma nbrs_add_node n s G w : graph_ok G -> nbrs (add_node n s G) w = nbrs G w.
Proof.
  intros [Habs _]. unfold add_node. destruct (decide (n ∈ g_order G)); [done |].
  unfold nbrs at 1. simpl. destruct (decide (w = n)) as [->|Hne].
  - rewrite lookup_insert_eq. simpl. symmetry. by apply Habs.
  - by rewrite lookup_insert_ne.
Qed.

Lemma add_node_ok n s G : graph_ok G -> graph_ok (add_node n s G).
Proof.
  intros HG. split; intros w.
  - rewrite nbrs_add_node by done. intros Hw. apply (ok_absent _ HG).
    intros Hw'. apply Hw. unfold add_node.
    destruct (decide (n ∈ g_order G)); simpl; [done |].
    apply elem_of_app. by left.
  - rewrite nbrs_add_node by done. apply (ok_nodup _ HG).
Qed.

(** [G.edges] *)
Lemma elem_of_edges_from_seq G seen a k u v :
  (u, v) ∈ edges_from G seen (seq a k) <->
  (a <= u /\ u < a + k) /\ v ∈ nbrs G u /\ (v ∉ seen) /\ ~ (a <= v /\ v < u).
Proof.
  revert a seen. induction k as [|k IH]; intros a seen; simpl.
  - rewrite elem_of_nil. lia.
  - rewrite elem_of_app, IH, list_elem_of_fmap. split.
    + intros [(y & Huv & Hy) | (Hu & Hv & Hseen & Hlt)].
      * injection Huv as -> ->. apply list_elem_of_filter in Hy as [Hs Hy].
        repeat split; [lia | lia | done | done | lia].
      * apply not_elem_of_union in Hseen as [Hva Hseen].
        rewrite elem_of_singleton in Hva.
        repeat split; [lia | lia | done | done | lia].
    + intros (Hu & Hv & Hseen & Hlt).
      destruct (decide (u = a)) as [->|Hne].
      * left. exists v. split; [done |]. by apply list_elem_of_filter.
      * right. repeat split; [lia | lia | done | | lia].
        apply not_elem_of_union. split; [| done].
        rewrite elem_of_singleton. lia.
Qed.

Lemma edges_from_source G seen ns u v :
  (u, v) ∈ edges_from G seen ns -> u ∈ ns.
Proof.
  revert seen. induction ns as [|n ns IH]; intros seen; simpl.
  - by rewrite elem_of_nil.
  - rewrite elem_of_app, list_elem_of_fmap. intros [(y & Huv & _) | H].
    + injection Huv as -> _. by left.
    + right. by eapply IH.
Qed.

Lemma NoDup_edges_from G seen ns :
  NoDup ns -> (forall n, NoDup (nbrs G n)) -> NoDup (edges_from G seen ns).
Proof.
  intros Hns Hnb. revert seen.
  induction Hns as [|n ns Hn Hns IH]; intros seen; simpl; [constructor |].
  apply NoDup_app. split; [| split].
  - apply NoDup_fmap_2; [intros x y; congruence |].
    apply NoDup_filter, Hnb.
  - intros [u v] Huv Huv'. apply list_elem_of_fmap in Huv as (y & Huv & _).
    injection Huv as -> _. apply edges_from_source in Huv'. done.
  - apply IH.
Qed.

(** A loop that only adds edges between existing nodes. *)
Lemma foldl_adds {A} (f : Graph -> A -> Graph) (R : A -> nat -> nat -> Prop)
    (ns : list nat) (l : list A) (G : Graph) :
  (forall G a, a ∈ l -> graph_ok G -> g_order G = ns -> adds ns (R a) G (f G a)) ->
  graph_ok G -> g_order G = ns ->
  adds ns (fun w x => exists a, a ∈ l /\ R a w x) G (foldl f G l).
Proof.
  revert G. induction l as [|a l IH]; intros G Hstep HG Hns; simpl.
  - split; [done |]. intros w x. split; [tauto |].
    intros [H | [(a & Ha & _) | (a & Ha & _)]]; [done | |]; by apply elem_of_nil in Ha.
  - destruct (Hstep G a) as [[HG' Hns'] Hadj]; [by left | done | done |].
    destruct (IH (f G a)) as [Hok Hadj']; [| done | done |].
    { intros G0 b Hb. apply Hstep. by right. }
    split; [done |]. intros w x. rewrite Hadj', Hadj. split.
    + intros [[H | [H | H]] | [(b & Hb & H) | (b & Hb & H)]].
      * by left.
      * right. left. exists a. split; [by left | done].
      * right. right. exists a. split; [by left | done].
      * right. left. exists b. split; [by right | done].
      * right. right. exists b. split; [by right | done].
    + intros [H | [(b & Hb & H) | (b & Hb & H)]].
      * left. by left.
      * apply elem_of_cons in Hb as [->|Hb]; [left; right; by left |].
        right. left. by exists b.
      * apply elem_of_cons in Hb as [->|Hb]; [left; right; by right |].
        right. right. by exists b.
Qed.


Lemma add_nodes_from (l : list string) (a : nat) (G : Graph) :
  graph_ok G -> g_order G = seq 0 a -> (forall w, nbrs G w = []) ->
  let G' := foldl (fun G '(i, s) => add_node i s G) G (zip (seq a (length l)) l) in
  graph_ok G' /\ g_order G' = seq 0 (a + length l) /\ forall w, nbrs G' w = [].
Proof.
  revert a G. induction l as [|x l IH]; intros a G HG Hns Hnb; simpl.
  - by rewrite Nat.add_0_r.
  - replace (a + S (length l)) with (S a + length l) by lia.
    apply IH.
    + by apply add_node_ok.
    + rewrite add_node_order, Hns.
      * by rewrite seq_S.
      * rewrite Hns, elem_of_seq. lia.
    + intros w. by rewrite nbrs_add_node.
Qed.

Section GraphLoops.
Variable tokens : string -> list Token.

Lemma add_nodes_spec ss :
  let G := add_nodes ss new_graph in
  graph_ok G /\ g_order G = seq 0 (length ss) /\ forall w, nbrs G w = [].
Proof.
  apply (add_nodes_from ss 0 new_graph); [apply new_graph_ok | done | apply nbrs_new_graph].
Qed.

Lemma connect_adds ss ns i j G :
  i ∈ ns -> j ∈ ns -> graph_ok G -> g_order G = ns ->
  adds ns (fun w x => w = i /\ x = j /\ share tokens ss i j) G (connect tokens ss i j G).
Proof.
  intros Hi Hj HG Hns. subst ns. unfold connect, share.
  destruct (decide (nouns tokens (ss !!! i) ∩ nouns tokens (ss !!! j) ≠ ∅))
    as [Hsh | Hsh].
  - split; [split; [by apply add_edge_ok | by apply add_edge_order] |].
    intros w x. rewrite elem_of_nbrs_add_edge by done. tauto.
  - split; [done |]. intros w x. tauto.
Qed.

Lemma add_edges_adds ss G :
  graph_ok G -> g_order G = seq 0 (length ss) ->
  adds (seq 0 (length ss))
    (fun w x => w < x /\ x < length ss /\ share tokens ss w x) G (add_edges tokens ss G).
Proof.
  intros HG Hns. unfold add_edges.
  pose proof (foldl_adds
    (fun G i => foldl (fun G j => connect tokens ss i j G) G
                  (seq (S i) (length ss - S i)))
    (fun i w x => w = i /\ i < x /\ x < length ss /\ share tokens ss i x)
    (seq 0 (length ss)) (seq 0 (length ss)) G) as Hout.
  destruct Hout as [Hok Hadj]; [| done | done |].
  - intros G0 i Hi HG0 Hns0. apply elem_of_seq in Hi.
    pose proof (foldl_adds (fun G j => connect tokens ss i j G)
      (fun j w x => w = i /\ x = j /\ share tokens ss i j)
      (seq 0 (length ss)) (seq (S i) (length ss - S i)) G0) as Hin.
    destruct Hin as [Hok Hadj]; [| done | done |].
    + intros G1 j Hj HG1 Hns1. apply elem_of_seq in Hj.
      apply connect_adds; [| | done | done]; apply elem_of_seq; lia.
    + split; [done |]. intros w x. rewrite Hadj.
      setoid_rewrite elem_of_seq. split.
      * intros [H | [(j & Hj & -> & -> & Hsh) | (j & Hj & -> & -> & Hsh)]];
          [by left | right; left | right; right]; repeat split; (lia || done).
      * intros [H | [(-> & Hx & Hx' & Hsh) | (-> & Hx & Hx' & Hsh)]];
          [by left | right; left; exists x | right; right; exists w];
          repeat split; (lia || done).
  - split; [done |]. intros w x. rewrite Hadj.
    setoid_rewrite elem_of_seq. split.
    + intros [H | [(i & Hi & -> & Hlt & Hlen & Hsh) | (i & Hi & -> & Hlt & Hlen & Hsh)]];
        [by left | right; left | right; right]; done.
    + intros [H | [(Hlt & Hlen & Hsh) | (Hlt & Hlen & Hsh)]];
        [by left | right; left; exists w | right; right; exists x];
        repeat split; (lia || done).
Qed.
End GraphLoops.

(** ** The relation graph (lines 64-77) *)

Section RelationGraph.
Variable tokens : string -> list Token.

Lemma relation_graph_adds ss :
  adds (seq 0 (length ss))
    (fun w x => w < x /\ x < length ss /\ share tokens ss w x)
    new_graph (relation_graph tokens ss).
Proof.
  destruct (add_nodes_spec ss) as (Hok & Hns & Hnb).
  destruct (add_edges_adds tokens ss _ Hok Hns) as [HG Hadj].
  split; [done |]. intros w x. rewrite Hadj, Hnb, nbrs_new_graph. tauto.
Qed.

Lemma elem_of_edges_relation_graph ss i j :
  (i, j) ∈ edges (relation_graph tokens ss) <->
  i < j /\ j < length ss /\ share tokens ss i j.
Proof.
  destruct (relation_graph_adds ss) as [[HG Hns] Hadj].
  unfold edges. rewrite Hns, elem_of_edges_from_seq, Hadj, nbrs_new_graph.
  rewrite elem_of_nil. split.
  - intros (Hi & [[] | [H | H]] & _ & Hle); [done |]. lia.
  - intros (Hij & Hj & Hsh). repeat split; [lia | lia | | | lia].
    + right. by left.
    + apply not_elem_of_empty.
Qed.

Lemma share_lookup ss i j :
  j < length ss /\ i < j /\ share tokens ss i j <->
  i < j /\ exists si sj, ss !! i = Some si /\ ss !! j = Some sj
                         /\ nouns tokens si ∩ nouns tokens sj ≠ ∅.
Proof.
  unfold share. split.
  - intros (Hj & Hij & Hsh). split; [done |].
    exists (ss !!! i), (ss !!! j).
    split; [apply list_lookup_lookup_total_lt; lia |].
    split; [by apply list_lookup_lookup_total_lt | done].
  - intros (Hij & si & sj & Hi & Hj & Hsh).
    split; [by eapply lookup_lt_Some |]. split; [done |].
    by rewrite (list_lookup_total_correct _ _ _ Hi),
               (list_lookup_total_correct _ _ _ Hj).
Qed.

(** C2. The edge list of the relation graph holds the pair (i, j) exactly
    when i < j, both are sentence indices and the two noun sets meet; it
    has no pair twice and no pair (i, i); and the index of a sentence
    without nouns is in no pair at all. *)
Theorem relation_graph_edges (ss : list string) :
  let G := relation_graph tokens ss in
  (forall i j, (i, j) ∈ edges G <->
      i < j /\ exists si sj, ss !! i = Some si /\ ss !! j = Some sj
                             /\ nouns tokens si ∩ nouns tokens sj ≠ ∅)
  /\ NoDup (edges G)
  /\ (forall i, (i, i) ∉ edges G)
  /\ (forall i si, ss !! i = Some si -> nouns tokens si = ∅ ->
        forall j, ((i, j) ∉ edges G) /\ ((j, i) ∉ edges G)).
Proof.
  cbv zeta. set (G := relation_graph tokens ss).
  assert (forall i j, (i, j) ∈ edges G <->
      i < j /\ exists si sj, ss !! i = Some si /\ ss !! j = Some sj
                             /\ nouns tokens si ∩ nouns tokens sj ≠ ∅) as Hedge.
  { intros i j. unfold G. rewrite elem_of_edges_relation_graph, <- share_lookup.
    tauto. }
  split; [exact Hedge |]. split; [| split].
  - destruct (relation_graph_adds ss) as [[HG Hns] _].
    unfold edges. apply NoDup_edges_from.
    + unfold G. rewrite Hns. apply NoDup_seq.
    + apply (ok_nodup _ HG).
  - intros i Hi. apply Hedge in Hi as [Hi _]. lia.
  - intros i si Hsi Hnone j. split; intros Hij;
      apply Hedge in Hij as (_ & s1 & s2 & H1 & H2 & Hsh); apply Hsh.
    + rewrite Hsi in H1. injection H1 as <-. rewrite Hnone.
      apply (left_absorb_L ∅ (∩)).
    + rewrite Hsi in H2. injection H2 as <-. rewrite Hnone.
      apply (right_absorb_L ∅ (∩)).
Qed.

End RelationGraph.

Lemma relation_graph_edges_witness :
  ((2, 1) ∉ edges (relation_graph toy_tokens
                     ["Cats sit on mats."; "Mats are soft."; "Go."]))
  /\ ((1, 2) ∉ edges (relation_graph toy_tokens
                        ["Cats sit on mats."; "Mats are soft."; "Go."])).
Proof.
  destruct (relation_graph_edges toy_tokens
              ["Cats sit on mats."; "Mats are soft."; "Go."])
    as (_ & _ & _ & Hnone).
  pose proof (Hnone 2 "Go." eq_refl eq_refl 1) as [H21 H12].
  split; assumption.
Defined.

(** The scenario of the specification: two sentences sharing the noun
    "mat" give the single edge (0, 1) and no cause-effect marker. *)
Example cats_and_mats :
  edges (relation_graph toy_tokens ["Cats sit on mats."; "Mats are soft."])
  = [(0, 1)]
  /\ cause_effect_pairs ["Cats sit on mats."; "Mats are soft."] = [].
Proof. split; vm_compute; reflexivity. Qed.

(** ** The pattern detector (lines 87-90) *)

Lemma cause_effect_pairs_filter ss :
  cause_effect_pairs ss
  = filter (fun p => contains "because" (lower p.2) = true) (enumerate ss).
Proof.
  unfold cause_effect_pairs.
  rewrite <- (app_nil_l (filter _ _)),
    <- (foldl_collect (fun p => contains "because" (lower p.2))).
  apply foldl_ext. intros acc [i s]. done.
Qed.


Lemma elem_of_cause_effect_pairs ss i s :
  (i, s) ∈ cause_effect_pairs ss <->
  ss !! i = Some s /\ contains "because" (lower s) = true.
Proof.
  rewrite cause_effect_pairs_filter, list_elem_of_filter, elem_of_enumerate.
  simpl. tauto.
Qed.

(** C4. The detector returns the pair (i, s) exactly when s is sentence i
    and the lowercased s has "because" as a substring; the pairs come in
    ascending index order; s is the sentence itself, casing untouched. *)
Theorem cause_effect_pairs_spec (ss : list string) :
  (forall i s, (i, s) ∈ cause_effect_pairs ss <->
     ss !! i = Some s /\ exists p q, lower s = p +:+ "because" +:+ q)
  /\ StronglySorted lt (cause_effect_pairs ss).*1.
Proof.
  split.
  - intros i s. by rewrite elem_of_cause_effect_pairs, contains_spec.
  - rewrite cause_effect_pairs_filter.
    eapply StronglySorted_sublist; [apply fmap_sublist, sublist_filter |].
    rewrite fst_enumerate. apply StronglySorted_lt_seq.
Qed.

(** The matching examples of the specification. *)
Example because_matching :
  cause_effect_pairs ["Sentence X happened Because Y"; "It is becausE."; "caus"]
  = [(0, "Sentence X happened Because Y"); (1, "It is becausE.")].
Proof. vm_compute. reflexivity. Qed.

(** ** The memory dictionary (lines 103-105, 139) *)

Lemma stores_same_key (k : string) (vs : list string) (m : gmap string string) :
  foldl (fun m v => store k v m) m vs
  = match last vs with Some v => store k v m | None => m end.
Proof.
  revert m. induction vs as [|v vs IH]; intros m; [done |].
  simpl foldl. rewrite IH, last_cons. destruct (last vs); [| done].
  unfold store. apply insert_insert_eq.
Qed.

(** C6. A store under a key replaces what was stored under it, whatever it
    was; a fetch gives the value stored under the key asked for and the
    empty string for any other key; after two stores under one key the
    fetch gives the second value; and a dictionary written under one key
    only, as in the script, never holds more than one entry. *)
Theorem memory_slot (k k' v1 v2 : string) (m : gmap string string)
    (vs : list string) (paragraph paragraph' : string) :
  fetch k (store k v2 (store k v1 m)) = v2
  /\ store k v2 (store k v1 m) = store k v2 m
  /\ fetch k' (store k v1 ∅) = (if decide (k' = k) then v1 else "")
  /\ size (foldl (fun m v => store k v m) ∅ vs) <= 1
  /\ fetch k (foldl (fun m v => store k v m) ∅ vs) = default "" (last vs)
  /\ memory_store paragraph = {[ memory_key := strip paragraph ]}
  /\ store memory_key (strip paragraph') (memory_store paragraph)
     = memory_store paragraph'.
Proof.
  unfold fetch, store, memory_store, store.
  split; [by rewrite lookup_insert_eq |].
  split; [apply insert_insert_eq |].
  split.
  { destruct (decide (k' = k)) as [->|Hne].
    - by rewrite lookup_insert_eq.
    - by rewrite lookup_insert_ne, lookup_empty. }
  pose proof (stores_same_key k vs ∅) as Hvs. unfold store in Hvs.
  rewrite Hvs. split; [| split].
  - destruct (last vs); [| by rewrite map_size_empty; lia].
    rewrite map_size_insert_None by apply lookup_empty.
    by rewrite map_size_empty.
  - destruct (last vs); [by rewrite lookup_insert_eq | by rewrite lookup_empty].
  - split; [done |]. apply insert_insert_eq.
Qed.

(** ** Quantized rows and the assembled record (lines 116-141) *)

Lemma foldl_snoc_map {A B} (f : A -> B) (l : list A) (acc : list B) :
  foldl (fun acc x => acc ++ [f x]) acc l = acc ++ map f l.
Proof.
  revert acc. induction l as [|x l IH]; intros acc; simpl.
  - by rewrite app_nil_r.
  - by rewrite IH, <- app_assoc.
Qed.

Lemma quantized_embeddings_map (E : list (list Q)) :
  quantized_embeddings E = map quantize_vec E.
Proof. unfold quantized_embeddings. by rewrite foldl_snoc_map. Qed.

Lemma quantize_vec_range (vec : list Q) :
  Forall (fun q => (0 <= q <= 255)%Z) (quantize_vec vec).
Proof.
  unfold quantize_vec. apply Forall_forall. intros q Hq.
  apply list_elem_of_fmap in Hq as (v & -> & _). apply quantize_range.
Qed.

Section Run.
Variable sents : string -> list string.
Variable tokens : string -> list Token.
Variable encode : list string -> ndarray.

Lemma run_first_row paragraph D row rest :
  shape (encode (sentences sents paragraph)) !! 1 = Some D ->
  data (encode (sentences sents paragraph)) = row :: rest ->
  run sents tokens encode paragraph
  = Ok (mkOutput (sentences sents paragraph)
          (map snd (cause_effect_pairs (sentences sents paragraph)))
          (edges (relation_graph tokens (sentences sents paragraph)))
          (strip paragraph)
          (take 10 (quantize_vec row))).
Proof.
  intros Hshape Hrow. unfold run, getitem.
  rewrite Hshape, Hrow, quantized_embeddings_map. reflexivity.
Qed.

Lemma run_no_row paragraph :
  data (encode (sentences sents paragraph)) = [] ->
  run sents tokens encode paragraph = Raise IndexError.
Proof.
  intros Hrow. unfold run, getitem. rewrite Hrow, quantized_embeddings_map.
  by destruct (shape (encode (sentences sents paragraph)) !! 1).
Qed.

(** C3, as the script has it. With no sentence (and an encoder that returns
    no row for no sentence) the sentence list, the marker list and the edge
    list are empty and the trimmed input is what the memory is given, but
    no record is assembled: the run raises IndexError, at the latest when
    line 140 reads row 0 of an empty array. *)
Theorem run_no_sentences (paragraph : string) :
  sentences sents paragraph = [] ->
  data (encode []) = [] ->
  run sents tokens encode paragraph = Raise IndexError
  /\ cause_effect_pairs (sentences sents paragraph) = []
  /\ edges (relation_graph tokens (sentences sents paragraph)) = []
  /\ fetch memory_key (memory_store paragraph) = strip paragraph.
Proof.
  intros Hss Henc. split; [apply run_no_row; by rewrite Hss |].
  rewrite Hss. split; [done |]. split; [done |].
  unfold fetch, memory_store, store. by rewrite lookup_insert_eq.
Qed.

(** C5. With at least one sentence, and an encoder that returns one row of
    D components per sentence, the run assembles a record whose preview is
    the first min(10, D) components of the quantized first row, each
    between 0 and 255: ten of them when D >= 10, D of them otherwise. *)
Theorem preview_spec (paragraph : string) (D : nat) :
  sentences sents paragraph ≠ [] ->
  well_shaped (length (sentences sents paragraph)) D
    (encode (sentences sents paragraph)) ->
  exists out row,
    run sents tokens encode paragraph = Ok out
    /\ data (encode (sentences sents paragraph)) !! 0 = Some row
    /\ quantized_embeddings_preview out = take (D `min` 10) (quantize_vec row)
    /\ length (quantized_embeddings_preview out) = D `min` 10
    /\ Forall (fun q => (0 <= q <= 255)%Z) (quantized_embeddings_preview out)
    /\ (10 <= D -> length (quantized_embeddings_preview out) = 10)
    /\ (D < 10 -> length (quantized_embeddings_preview out) = D).
Proof.
  intros Hss (Hshape & Hlen & Hdim).
  destruct (data (encode (sentences sents paragraph))) as [|row rest] eqn:Henc.
  { destruct (sentences sents paragraph); [done | discriminate]. }
  assert (length (quantize_vec row) = D) as HD.
  { unfold quantize_vec. rewrite length_map.
    by apply Forall_cons in Hdim as [? _]. }
  assert (length (take 10 (quantize_vec row)) = D `min` 10) as Hprev.
  { rewrite length_take, HD. lia. }
  eexists _, row. split.
  { apply (run_first_row _ D row rest); [by rewrite Hshape | done]. }
  simpl. split; [done |]. split; [| split; [done |]; split; [| lia]].
  - rewrite <- (take_ge (quantize_vec row) D) at 1 by lia.
    rewrite take_take. f_equal. lia.
  - apply Forall_take, quantize_vec_range.
Qed.

End Run.

Lemma run_no_sentences_witness :
  run no_sents toy_tokens toy_encode "" = Raise IndexError
  /\ cause_effect_pairs (sentences no_sents "") = []
  /\ edges (relation_graph toy_tokens (sentences no_sents "")) = []
  /\ fetch memory_key (memory_store "") = strip "".
Proof.
  apply (run_no_sentences no_sents toy_tokens toy_encode ""); reflexivity.
Defined.

(** C3, as the specification has it, fails: on the empty input, with a
    segmenter that finds no sentence, the run raises IndexError instead of
    assembling a record. *)
Lemma empty_input_raises :
  sentences no_sents "" = []
  /\ run no_sents toy_tokens toy_encode "" = Raise IndexError
  /\ ~ exists out, run no_sents toy_tokens toy_encode "" = Ok out.
Proof.
  split; [reflexivity |]. split; [reflexivity |].
  intros [out Hout]. discriminate Hout.
Qed.

Lemma preview_spec_witness :
  exists out row,
    run toy_sents toy_tokens toy_encode "Cats sit on mats. Mats are soft."
    = Ok out
    /\ data (toy_encode (sentences toy_sents "Cats sit on mats. Mats are soft."))
       !! 0 = Some row
    /\ quantized_embeddings_preview out = take (12 `min` 10) (quantize_vec row)
    /\ length (quantized_embeddings_preview out) = 12 `min` 10
    /\ Forall (fun q => (0 <= q <= 255)%Z) (quantized_embeddings_preview out)
    /\ (10 <= 12 -> length (quantized_embeddings_preview out) = 10)
    /\ (12 < 10 -> length (quantized_embeddings_preview out) = 12).
Proof.
  apply (preview_spec toy_sents toy_tokens toy_encode
           "Cats sit on mats. Mats are soft." 12).
  - vm_compute. discriminate.
  - split; [reflexivity |]. split; [reflexivity |]. repeat constructor.
Defined.

(** The run of the scenario, evaluated. *)
Example run_cats_and_mats :
  run toy_sents toy_tokens toy_encode "  Cats sit on mats. Mats are soft. "
  = Ok (mkOutput ["Cats sit on mats."; "Mats are soft."] [] [(0, 1)]
          "Cats sit on mats. Mats are soft."
          [0; 127; 255; 191; 63; 255; 0; 159; 242; 12]%Z).
Proof. vm_compute. reflexivity. Qed.

(** ** Segmentation (lines 44-45) *)

Section Segmentation.
Variable sents : string -> list string.
Variable tokens : string -> list Token.

Lemma sentences_filter_blank paragraph :
  sentences sents paragraph
  = filter (fun s => ~ blank s) (sents (strip paragraph)).
Proof.
  unfold sentences. apply list_filter_iff. intros s.
  by rewrite truthy_true, strip_empty.
Qed.

(** C7, as the script has it. The kept sentences are texts of the
    segmenter, unchanged and in its order; each has a character that is not
    whitespace, so none is empty; the script does not trim them, so they
    are trimmed when the segmenter's texts are. *)
Theorem sentences_as_emitted (paragraph : string) :
  sublist (sentences sents paragraph) (sents (strip paragraph))
  /\ Forall (fun s => s ≠ "" /\ ~ blank s) (sentences sents paragraph)
  /\ (Forall trimmed (sents (strip paragraph)) ->
      Forall trimmed (sentences sents paragraph)).
Proof.
  rewrite sentences_filter_blank. split; [apply sublist_filter |]. split.
  - apply Forall_forall. intros s Hs. apply list_elem_of_filter in Hs as [Hs _].
    split; [| done]. intros ->. apply Hs. constructor.
  - intros Htrim. apply Forall_forall. intros s Hs.
    apply list_elem_of_filter in Hs as [_ Hs].
    rewrite Forall_forall in Htrim. by apply Htrim.
Qed.

(** C10. A text of the segmenter is kept exactly when one of its characters
    is not whitespace: the sentence list is the segmenter's list without
    its blank texts. Nodes and markers are made from the kept sentences
    only: the nodes of the graph are their indices, and every marker is a
    kept sentence at its index. *)
Theorem blank_segments_dropped (paragraph : string) :
  let ss := sentences sents paragraph in
  (forall s, s ∈ ss <->
     s ∈ sents (strip paragraph)
     /\ exists c, c ∈ chars s /\ isspace c = false)
  /\ ss = filter (fun s => ~ blank s) (sents (strip paragraph))
  /\ g_order (relation_graph tokens ss) = seq 0 (length ss)
  /\ (enumerate ss).*1 = seq 0 (length ss)
  /\ Forall (fun p => ss !! p.1 = Some p.2) (cause_effect_pairs ss).
Proof.
  cbv zeta. split; [| split; [apply sentences_filter_blank |]; split; [| split]].
  - intros s. unfold sentences.
    rewrite list_elem_of_filter, truthy_strip. tauto.
  - by destruct (relation_graph_adds tokens (sentences sents paragraph))
      as [[_ Hns] _].
  - apply fst_enumerate.
  - apply Forall_forall. intros [i s] Hp.
    by apply elem_of_cause_effect_pairs in Hp as [Hp _].
Qed.

End Segmentation.

Lemma sentences_as_emitted_witness :
  Forall trimmed (sentences toy_sents "Cats sit on mats. Mats are soft.").
Proof.
  apply (sentences_as_emitted toy_sents "Cats sit on mats. Mats are soft.").
  repeat constructor.
Defined.

(** C7, as the specification has it, fails: a segmenter that leaves a line
    feed at the end of a sentence sees it kept as it is, not trimmed. *)
Lemma sentences_not_trimmed :
  sentences ragged_sents ("Hi." +:+ LF +:+ "   " +:+ LF +:+ "Bye.")
  = ["Hi." +:+ LF; "Bye."]
  /\ ~ trimmed ("Hi." +:+ LF)
  /\ ~ Forall trimmed
       (sentences ragged_sents ("Hi." +:+ LF +:+ "   " +:+ LF +:+ "Bye.")).
Proof.
  split; [vm_compute; reflexivity |].
  split; [vm_compute; discriminate |].
  intros H. apply Forall_inv in H. vm_compute in H. discriminate H.
Qed.

(** ** Quantization (lines 116-121) *)

Section QuantizerClaims.
#[local] Open Scope Z_scope.



(** C8. A smaller component never gets a larger quantized value. *)
Theorem quantize_monotone (v1 v2 : Q) :
  (v1 < v2)%Q -> quantize v1 <= quantize v2.
Proof. intros H. apply quantize_mono, Qlt_le_weak, H. Qed.

Lemma quantize_monotone_witness :
  quantize (1 # 4) <= quantize (1 # 3).
Proof. apply (quantize_monotone (1 # 4) (1 # 3)). reflexivity. Defined.


End QuantizerClaims.

(** ** Quantization under rounding *)

Section RoundedFacts.
#[local] Open Scope Z_scope.
Variable rnd : Q -> Q.
Hypothesis rnd_mono : forall x y, (x <= y)%Q -> (rnd x <= rnd y)%Q.

Lemma scaled_rnd_mono v1 v2 :
  (v1 <= v2)%Q -> (scaled_rnd rnd v1 <= scaled_rnd rnd v2)%Q.
Proof.
  intros H. unfold scaled_rnd. apply rnd_mono.
  apply Qmult_le_l; [reflexivity |]. apply rnd_mono, Qplus_le_l, H.
Qed.

(** Whatever the rounding, the result is the floor of the clamped scaled
    value and lies in 0..255; a monotone rounding keeps the quantizer
    monotone. *)
Lemma quantize_rnd_floor v :
  quantize_rnd rnd v = Qfloor (clip (scaled_rnd rnd v) 0 255)
  /\ 0 <= quantize_rnd rnd v <= 255.
Proof.
  unfold quantize_rnd. rewrite astype_uint8_clip.
  split; [done | apply Qfloor_clip_range].
Qed.

Lemma quantize_rnd_mono v1 v2 :
  (v1 <= v2)%Q -> quantize_rnd rnd v1 <= quantize_rnd rnd v2.
Proof.
  intros H. unfold quantize_rnd. rewrite !astype_uint8_clip.
  apply Qfloor_resp_le, clip_mono, scaled_rnd_mono, H.
Qed.

End RoundedFacts.

Lemma quantize_rnd_exact v : quantize_rnd (fun x => x) v = quantize v.
Proof. reflexivity. Qed.

(** ** Binary32 evaluations *)

(** The three components the specification names, and two out of range. *)
Example binary32_points :
  Binary32.quantize (Binary32.of_Z (-1) 0) = Some 0%Z
  /\ Binary32.quantize (Binary32.of_Z 0 0) = Some 127%Z
  /\ Binary32.quantize (Binary32.of_Z 1 0) = Some 255%Z
  /\ Binary32.quantize (Binary32.of_Z (-3) 0) = Some 0%Z
  /\ Binary32.quantize (Binary32.of_Z 7 (-1)) = Some 255%Z.
Proof. repeat split; vm_compute; reflexivity. Qed.

(** Rounding is visible next to an integer boundary: for the largest
    binary32 value below 1, the sum [v + 1.0] rounds to 2 and the result is
    255, where the exact product stays below 255 and truncates to 254. *)
Example binary32_rounds_sum :
  Binary32.quantize (Binary32.of_Z 16777215 (-24)) = Some 255%Z
  /\ quantize (16777215 # 16777216) = 254%Z.
Proof. split; vm_compute; reflexivity. Qed.

(** * Further properties *)

(** ** Order of the neighbour lists *)

Lemma StronglySorted_snoc_lt (l : list nat) (v : nat) :
  StronglySorted lt l -> (forall x, x ∈ l -> x < v) -> StronglySorted lt (l ++ [v]).
Proof.
  intros Hl Hv. induction Hl as [|y l Hl IH Hy]; simpl.
  - repeat constructor.
  - constructor.
    + apply IH. intros x Hx. apply Hv. by right.
    + apply Forall_app. split; [done |]. constructor; [| constructor].
      apply Hv. by left.
Qed.

Lemma link_sorted u v G :
  (forall x, x ∈ nbrs G u -> x < v) -> adj_sorted G -> adj_sorted (link u v G).
Proof.
  intros Hlt Hs w. rewrite nbrs_link.
  destruct (decide (w = u)) as [->|]; [| apply Hs].
  destruct (decide (v ∈ nbrs G u)); [apply Hs |].
  by apply StronglySorted_snoc_lt.
Qed.

Lemma add_edge_sorted u v G :
  u ∈ g_order G -> v ∈ g_order G -> u ≠ v ->
  (forall x, x ∈ nbrs G u -> x < v) ->
  (forall x, x ∈ nbrs G v -> x < u) ->
  adj_sorted G -> adj_sorted (add_edge u v G).
Proof.
  intros Hu Hv Hne Hltu Hltv Hs. unfold add_edge.
  rewrite (touch_order u G Hu), (touch_order v G Hv).
  apply link_sorted; [| by apply link_sorted].
  intros x. rewrite nbrs_link, decide_False by done. apply Hltv.
Qed.

Section LoopOrder.
Variable tokens : string -> list Token.
Variable ss : list string.

Lemma inner_S i k G :
  loop_inner tokens ss i (S k) G
  = connect tokens ss i (S i + k) (loop_inner tokens ss i k G).
Proof. unfold loop_inner. by rewrite seq_S, foldl_snoc. Qed.

Lemma outer_S m G :
  loop_outer tokens ss (S m) G
  = loop_inner tokens ss m (length ss - S m) (loop_outer tokens ss m G).
Proof. unfold loop_outer. by rewrite seq_S, foldl_snoc. Qed.

Lemma inner_adds i k G :
  i < length ss -> S i + k <= length ss ->
  graph_ok G -> g_order G = seq 0 (length ss) ->
  adds (seq 0 (length ss))
    (fun w x => w = i /\ i < x /\ x < S i + k /\ share tokens ss i x)
    G (loop_inner tokens ss i k G).
Proof.
  intros Hi Hk HG Hns.
  pose proof (foldl_adds (fun G j => connect tokens ss i j G)
    (fun j w x => w = i /\ x = j /\ share tokens ss i j)
    (seq 0 (length ss)) (seq (S i) k) G) as Hin.
  destruct Hin as [Hok Hadj]; [| done | done |].
  - intros G1 j Hj HG1 Hns1. apply elem_of_seq in Hj.
    apply connect_adds; [| | done | done]; apply elem_of_seq; lia.
  - split; [done |]. intros w x. unfold loop_inner. rewrite Hadj.
    setoid_rewrite elem_of_seq. split.
    + intros [H | [(j & Hj & -> & -> & Hsh) | (j & Hj & -> & -> & Hsh)]];
        [by left | right; left | right; right]; repeat split; (lia || done).
    + intros [H | [(-> & Hx & Hx' & Hsh) | (-> & Hx & Hx' & Hsh)]];
        [by left | right; left; exists x | right; right; exists w];
        repeat split; (lia || done).
Qed.

Lemma inner_sorted i k G :
  i < length ss -> S i + k <= length ss ->
  graph_ok G -> g_order G = seq 0 (length ss) ->
  (forall u x, x ∈ nbrs G u -> u < i \/ x < i) ->
  adj_sorted G -> adj_sorted (loop_inner tokens ss i k G).
Proof.
  intros Hi Hk HG Hns Hold Hs. induction k as [|k IH]; [done |].
  rewrite inner_S.
  destruct (inner_adds i k G) as [[HGk Hnsk] Hadj]; [lia | lia | done | done |].
  specialize (IH ltac:(lia)).
  unfold connect.
  destruct (decide (nouns tokens (ss !!! i) ∩ nouns tokens (ss !!! (S i + k)) ≠ ∅));
    [| done].
  apply add_edge_sorted; [| | lia | | | done].
  - rewrite Hnsk. apply elem_of_seq. lia.
  - rewrite Hnsk. apply elem_of_seq. lia.
  - intros x Hx. apply Hadj in Hx as [Hx | [Hx | Hx]]; [| lia | lia].
    apply Hold in Hx. lia.
  - intros x Hx. apply Hadj in Hx as [Hx | [Hx | Hx]]; [| lia | lia].
    apply Hold in Hx. lia.
Qed.

Lemma outer_adds m G :
  m <= length ss -> graph_ok G -> g_order G = seq 0 (length ss) ->
  adds (seq 0 (length ss))
    (fun w x => w < m /\ w < x /\ x < length ss /\ share tokens ss w x)
    G (loop_outer tokens ss m G).
Proof.
  intros Hm HG Hns.
  pose proof (foldl_adds (fun G i => loop_inner tokens ss i (length ss - S i) G)
    (fun i w x => w = i /\ i < x /\ x < length ss /\ share tokens ss i x)
    (seq 0 (length ss)) (seq 0 m) G) as Hout.
  destruct Hout as [Hok Hadj]; [| done | done |].
  - intros G0 i Hi HG0 Hns0. apply elem_of_seq in Hi.
    destruct (inner_adds i (length ss - S i) G0) as [Hok Hadj];
      [lia | lia | done | done |].
    split; [done |]. intros w x. rewrite Hadj.
    replace (S i + (length ss - S i)) with (length ss) by lia. done.
  - split; [done |]. intros w x. unfold loop_outer. rewrite Hadj.
    setoid_rewrite elem_of_seq. split.
    + intros [H | [(i & Hi & -> & Hlt & Hlen & Hsh) | (i & Hi & -> & Hlt & Hlen & Hsh)]];
        [by left | right; left | right; right]; repeat split; (lia || done).
    + intros [H | [(Hwm & Hlt & Hlen & Hsh) | (Hwm & Hlt & Hlen & Hsh)]];
        [by left | right; left; exists w | right; right; exists x];
        repeat split; (lia || done).
Qed.

Lemma outer_sorted m G :
  m <= length ss -> graph_ok G -> g_order G = seq 0 (length ss) ->
  (forall u, nbrs G u = []) ->
  adj_sorted (loop_outer tokens ss m G).
Proof.
  intros Hm HG Hns Hnb. induction m as [|m IH].
  - intros u. unfold loop_outer. simpl. rewrite Hnb. constructor.
  - rewrite outer_S.
    destruct (outer_adds m G) as [[HGm Hnsm] Hadj]; [lia | done | done |].
    apply inner_sorted; [lia | lia | done | done | | apply IH; lia].
    intros u x Hx. apply Hadj in Hx as [Hx | [Hx | Hx]]; [| lia | lia].
    rewrite Hnb in Hx. by apply elem_of_nil in Hx.
Qed.

Lemma add_edges_outer G :
  add_edges tokens ss G = loop_outer tokens ss (length ss) G.
Proof. reflexivity. Qed.

Lemma relation_graph_sorted : adj_sorted (relation_graph tokens ss).
Proof.
  unfold relation_graph. rewrite add_edges_outer.
  destruct (add_nodes_spec ss) as (Hok & Hns & Hnb).
  by apply outer_sorted.
Qed.
End LoopOrder.

Lemma StronglySorted_NoDup {A} (R : relation A) (l : list A) :
  (forall x, ~ R x x) -> StronglySorted R l -> NoDup l.
Proof.
  intros Hirr. induction 1 as [|x l Hl IH Hx]; constructor; [| done].
  intros Hin. rewrite Forall_forall in Hx. by apply (Hirr x), Hx.
Qed.

Lemma sorted_lt_ext (l1 l2 : list nat) :
  StronglySorted lt l1 -> StronglySorted lt l2 ->
  (forall x, x ∈ l1 <-> x ∈ l2) -> l1 = l2.
Proof.
  intros H1 H2 Hiff.
  assert (AntiSymm eq lt) by (intros x y ? ?; lia).
  apply (StronglySorted_unique lt); [done | done |].
  apply NoDup_Permutation; [| | done];
    apply (StronglySorted_NoDup lt); (done || intros x; lia).
Qed.

Lemma lex_sorted_bind (f : nat -> list nat) (a k : nat) :
  (forall i, StronglySorted lt (f i)) ->
  StronglySorted lex_lt (i ← seq a k; pair i <$> f i).
Proof.
  intros Hf. revert a. induction k as [|k IH]; intros a; cbn [seq].
  - apply SSorted_nil.
  - rewrite bind_cons. apply StronglySorted_app_2; [| | apply IH].
    + intros p q Hp Hq. apply list_elem_of_fmap in Hp as (x & -> & _).
      apply list_elem_of_bind in Hq as (i & Hq & Hi).
      apply list_elem_of_fmap in Hq as (y & -> & _).
      apply elem_of_seq in Hi. left. simpl. lia.
    + apply (StronglySorted_fmap _ lt); [| apply Hf].
      intros x y Hxy. right. simpl. lia.
Qed.

Section EdgeOrder.
Variable tokens : string -> list Token.
Variable ss : list string.

Lemma edges_from_sharing G seen a k :
  a + k <= length ss ->
  (forall x, x ∈ seen <-> x < a) ->
  adj_sorted G ->
  (forall w x, x ∈ nbrs G w <->
     (w < x /\ x < length ss /\ share tokens ss w x)
     \/ (x < w /\ w < length ss /\ share tokens ss x w)) ->
  edges_from G seen (seq a k)
  = (i ← seq a k;
     pair i <$> filter (fun j => share tokens ss i j)
                  (seq (S i) (length ss - S i))).
Proof.
  intros Hk Hseen Hs Hadj. revert a seen Hk Hseen.
  induction k as [|k IH]; intros a seen Hk Hseen; cbn [seq edges_from]; [done |].
  rewrite bind_cons. f_equal.
  - f_equal. apply sorted_lt_ext.
    + eapply StronglySorted_sublist; [apply sublist_filter | apply Hs].
    + eapply StronglySorted_sublist;
        [apply sublist_filter | apply StronglySorted_lt_seq].
    + intros x. rewrite !list_elem_of_filter, Hadj, Hseen, elem_of_seq.
      split; [intros [Hx [H | H]]; [split; [tauto | lia] | lia] |].
      intros [Hsh Hx]. split; [lia |]. left. repeat split; (lia || done).
  - apply IH; [lia |]. intros x.
    rewrite elem_of_union, elem_of_singleton, Hseen. lia.
Qed.

Lemma relation_graph_nbrs w x :
  x ∈ nbrs (relation_graph tokens ss) w <->
  (w < x /\ x < length ss /\ share tokens ss w x)
  \/ (x < w /\ w < length ss /\ share tokens ss x w).
Proof.
  destruct (relation_graph_adds tokens ss) as [_ Hadj].
  rewrite Hadj, nbrs_new_graph, elem_of_nil. tauto.
Qed.

Lemma edges_sharing_pairs :
  edges (relation_graph tokens ss) = sharing_pairs tokens ss.
Proof.
  destruct (relation_graph_adds tokens ss) as [[_ Hns] _].
  unfold edges. rewrite Hns. apply edges_from_sharing.
  - lia.
  - intros x. rewrite elem_of_empty. lia.
  - apply relation_graph_sorted.
  - apply relation_graph_nbrs.
Qed.

(** X3. The edge list is the list of the pairs (i, j), i < j, whose
    sentences share a noun, in the order of the nested loops: ascending in
    i, then in j. *)
Theorem edges_nested_order :
  edges (relation_graph tokens ss) = sharing_pairs tokens ss
  /\ StronglySorted lex_lt (edges (relation_graph tokens ss)).
Proof.
  rewrite edges_sharing_pairs. split; [done |]. apply lex_sorted_bind.
  intros i. eapply StronglySorted_sublist;
    [apply sublist_filter | apply StronglySorted_lt_seq].
Qed.
End EdgeOrder.

Lemma g_text_add_edge u v G : g_text (add_edge u v G) = g_text G.
Proof.
  unfold add_edge, link, touch. simpl.
  destruct (decide (u ∈ g_order G)); simpl;
    by destruct (decide (v ∈ _)).
Qed.

Lemma g_text_foldl {A} (f : Graph -> A -> Graph) (l : list A) (G : Graph) :
  (forall G a, g_text (f G a) = g_text G) -> g_text (foldl f G l) = g_text G.
Proof.
  intros Hf. revert G. induction l as [|a l IH]; intros G; simpl; [done |].
  by rewrite IH, Hf.
Qed.

Lemma g_text_add_nodes_from (l : list string) (a : nat) (G : Graph) (w : nat) :
  g_text (foldl (fun G '(i, s) => add_node i s G) G (zip (seq a (length l)) l))
    !! w
  = if decide (a <= w)
    then match l !! (w - a) with Some s => Some s | None => g_text G !! w end
    else g_text G !! w.
Proof.
  revert a G. induction l as [|x l IH]; intros a G; simpl.
  - by destruct (decide (a <= w)).
  - rewrite IH.
    assert (forall v, g_text (add_node a x G) !! v
                      = if decide (v = a) then Some x else g_text G !! v) as Hadd.
    { intros v. unfold add_node.
      destruct (decide (a ∈ g_order G)); simpl;
        (destruct (decide (v = a)) as [->|];
         [by rewrite lookup_insert_eq | by rewrite lookup_insert_ne]). }
    rewrite Hadd.
    destruct (decide (S a <= w)), (decide (a <= w)); try lia.
    + replace (w - a) with (S (w - S a)) by lia. simpl.
      destruct (l !! (w - S a)); [done |]. by rewrite decide_False by lia.
    + assert (w = a) as -> by lia. rewrite Nat.sub_diag. simpl.
      by rewrite decide_True.
    + by rewrite decide_False by lia.
Qed.

Section Labels.
Variable tokens : string -> list Token.
Variable ss : list string.

Lemma g_text_relation_graph w :
  g_text (relation_graph tokens ss) !! w = ss !! w.
Proof.
  unfold relation_graph, add_edges.
  rewrite g_text_foldl.
  2:{ intros G i. apply g_text_foldl. intros G' j. unfold connect.
      destruct (decide _); [apply g_text_add_edge | done]. }
  unfold add_nodes, enumerate. rewrite g_text_add_nodes_from.
  rewrite decide_True by lia. rewrite Nat.sub_0_r.
  destruct (ss !! w) eqn:Hw; [done |]. done.
Qed.

(** X1. The nodes of the graph are the sentence indices, in order, each
    labelled with its sentence, whether or not it has an edge; there is no
    other node. *)
Theorem relation_graph_nodes :
  g_order (relation_graph tokens ss) = seq 0 (length ss)
  /\ (forall w, g_text (relation_graph tokens ss) !! w = ss !! w)
  /\ (forall w, w ∈ g_order (relation_graph tokens ss) <-> w < length ss).
Proof.
  destruct (relation_graph_adds tokens ss) as [[_ Hns] _].
  split; [done |]. split; [apply g_text_relation_graph |].
  intros w. rewrite Hns, elem_of_seq. lia.
Qed.

Lemma share_sym i j : share tokens ss i j <-> share tokens ss j i.
Proof. unfold share. by rewrite (comm_L (∩)). Qed.

(** X2. The graph is undirected and has no loop: x is a neighbour of w
    exactly when they are two different sentence indices whose noun sets
    meet, so exactly when w is a neighbour of x; no index is its own
    neighbour; and each neighbour list is in ascending order. *)
Theorem relation_graph_adjacency (w x : nat) :
  (x ∈ nbrs (relation_graph tokens ss) w <->
     w ≠ x /\ exists sw sx, ss !! w = Some sw /\ ss !! x = Some sx
                            /\ nouns tokens sw ∩ nouns tokens sx ≠ ∅)
  /\ (x ∈ nbrs (relation_graph tokens ss) w <->
      w ∈ nbrs (relation_graph tokens ss) x)
  /\ (w ∉ nbrs (relation_graph tokens ss) w)
  /\ StronglySorted lt (nbrs (relation_graph tokens ss) w).
Proof.
  split; [| split; [| split]].
  - rewrite relation_graph_nbrs. split.
    + intros [(Hlt & Hlen & Hsh) | (Hlt & Hlen & Hsh)].
      * split; [lia |]. apply (share_lookup tokens ss w x). tauto.
      * split; [lia |]. apply share_sym in Hsh.
        exists (ss !!! w), (ss !!! x).
        split; [apply list_lookup_lookup_total_lt; lia |].
        split; [apply list_lookup_lookup_total_lt; lia | done].
    + intros (Hne & sw & sx & Hw & Hx & Hsh).
      pose proof (lookup_lt_Some _ _ _ Hw). pose proof (lookup_lt_Some _ _ _ Hx).
      assert (share tokens ss w x) as Hs.
      { unfold share. by rewrite (list_lookup_total_correct _ _ _ Hw),
                                 (list_lookup_total_correct _ _ _ Hx). }
      destruct (decide (w < x)); [left | right; apply share_sym in Hs];
        repeat split; (lia || done).
  - rewrite !relation_graph_nbrs. tauto.
  - rewrite relation_graph_nbrs. lia.
  - apply relation_graph_sorted.
Qed.
End Labels.

Lemma filter_ext_in {A} (P Q : A -> Prop) `{!forall x, Decision (P x)}
    `{!forall x, Decision (Q x)} (l : list A) :
  (forall x, x ∈ l -> (P x <-> Q x)) -> filter P l = filter Q l.
Proof.
  induction l as [|x l IH]; intros Hiff; [done |].
  rewrite !filter_cons.
  rewrite IH by (intros y Hy; apply Hiff; by right).
  pose proof (Hiff x ltac:(by left)) as Hx.
  destruct (decide (P x)), (decide (Q x)); tauto.
Qed.

Lemma sharing_pairs_ext tokens1 tokens2 (ss : list string) :
  (forall s, s ∈ ss -> nouns tokens1 s = nouns tokens2 s) ->
  sharing_pairs tokens1 ss = sharing_pairs tokens2 ss.
Proof.
  intros Hn. unfold sharing_pairs.
  assert (forall i j, i < length ss -> j < length ss ->
            (share tokens1 ss i j <-> share tokens2 ss i j)) as Hsh.
  { intros i j Hi Hj. unfold share.
    rewrite !Hn; [done | |]; apply list_elem_of_lookup;
      eexists; by apply list_lookup_lookup_total_lt. }
  generalize (seq 0 (length ss)) (fun i (H : i ∈ seq 0 (length ss)) =>
     proj1 (elem_of_seq 0 (length ss) i) H).
  intros l Hl. induction l as [|i l IH]; [done |].
  rewrite !bind_cons. f_equal.
  - f_equal. apply filter_ext_in. intros j Hj.
    apply elem_of_seq in Hj. apply Hsh; [| lia].
    specialize (Hl i ltac:(by left)). lia.
  - apply IH. intros j Hj. apply Hl. by right.
Qed.

Lemma lstrip_split s : exists l, s = l +:+ lstrip s /\ blank l.
Proof.
  induction s as [|c s (l & Hl & Hb)]; simpl.
  - exists "". split; [done | constructor].
  - destruct (isspace c) eqn:Hc.
    + exists (String c l). split; [by rewrite append_cons, <- Hl |].
      by constructor.
    + exists "". split; [done | constructor].
Qed.

Lemma rstrip_split s : exists r, s = rstrip s +:+ r /\ blank r.
Proof.
  induction s as [|c s (r & Hr & Hb)]; simpl.
  - exists "". split; [done | constructor].
  - destruct (rstrip s) as [|d t] eqn:Ht.
    + destruct (isspace c) eqn:Hc.
      * exists (String c r). split; [by rewrite Hr at 1 |]. by constructor.
      * exists r. split; [by rewrite Hr at 1 | done].
    + exists r. split; [| done]. rewrite append_cons. by rewrite <- Hr.
Qed.

Lemma lstrip_head s c t : lstrip s = String c t -> isspace c = false.
Proof.
  induction s as [|a s IH]; simpl; [done |].
  destruct (isspace a) eqn:Ha; [done |]. congruence.
Qed.

Lemma rstrip_head c s : isspace c = false ->
  exists r, rstrip (String c s) = String c r.
Proof. intros Hc. simpl. rewrite Hc. destruct (rstrip s); eauto. Qed.

Lemma append_nil_l s : "" +:+ s = s.
Proof. reflexivity. Qed.

Lemma rstrip_last s t c : rstrip s = t +:+ String c "" -> isspace c = false.
Proof.
  revert t. induction s as [|a s IH]; intros t; simpl.
  - destruct t; discriminate.
  - destruct (rstrip s) as [|d r] eqn:Hr.
    + destruct (isspace a) eqn:Ha; [destruct t; discriminate |].
      destruct t as [|b t].
      * rewrite append_nil_l. congruence.
      * rewrite append_cons. intros H. injection H as _ H.
        destruct t; discriminate.
    + destruct t as [|b t].
      * rewrite append_nil_l. discriminate.
      * rewrite append_cons. intros H. injection H as _ H. by eapply IH.
Qed.

Lemma rstrip_cons a s :
  rstrip (String a s)
  = match rstrip s with
    | EmptyString => if isspace a then EmptyString else String a EmptyString
    | String d r => String a (String d r)
    end.
Proof. reflexivity. Qed.

Lemma rstrip_idemp s : rstrip (rstrip s) = rstrip s.
Proof.
  induction s as [|a s IH]; [done |].
  rewrite rstrip_cons. destruct (rstrip s) as [|d r] eqn:Hr.
  - destruct (isspace a) eqn:Ha; simpl; [done | by rewrite Ha].
  - by rewrite rstrip_cons, IH.
Qed.

Lemma lstrip_nonspace c s : isspace c = false -> lstrip (String c s) = String c s.
Proof. intros Hc. simpl. by rewrite Hc. Qed.

Lemma strip_idemp s : strip (strip s) = strip s.
Proof.
  unfold strip. destruct (lstrip s) as [|c t] eqn:Hl; [done |].
  pose proof (lstrip_head _ _ _ Hl) as Hc.
  destruct (rstrip_head c t Hc) as [r Hr]. rewrite Hr.
  rewrite (lstrip_nonspace c r Hc), <- Hr. apply rstrip_idemp.
Qed.

Lemma strip_spec (s : string) :
  (exists l r, s = l +:+ strip s +:+ r /\ blank l /\ blank r)
  /\ (forall c t, strip s = String c t -> isspace c = false)
  /\ (forall t c, strip s = t +:+ String c "" -> isspace c = false)
  /\ strip (strip s) = strip s.
Proof.
  split; [| split; [| split]].
  - destruct (lstrip_split s) as (l & Hl & Hbl).
    destruct (rstrip_split (lstrip s)) as (r & Hr & Hbr).
    exists l, r. unfold strip. by rewrite <- Hr.
  - unfold strip. intros c t Hs.
    destruct (lstrip s) as [|a u] eqn:Hl; [discriminate |].
    pose proof (lstrip_head _ _ _ Hl) as Ha.
    destruct (rstrip_head a u Ha) as [r Hr]. congruence.
  - intros t c. apply rstrip_last.
  - apply strip_idemp.
Qed.

Lemma snd_filter_zip {A B} (f : B -> bool) (l1 : list A) (l2 : list B) :
  length l1 = length l2 ->
  (filter (fun p => f p.2 = true) (zip l1 l2)).*2
  = filter (fun y => f y = true) l2.
Proof.
  revert l1. induction l2 as [|y l2 IH]; intros [|x l1] Hlen;
    try done; try discriminate.
  simpl zip. rewrite !filter_cons. simpl.
  destruct (decide (f y = true)); simpl; rewrite IH;
    (done || (simpl in Hlen; lia)).
Qed.

Lemma cause_effect_sentences_filter ss :
  (cause_effect_pairs ss).*2
  = filter (fun s => contains "because" (lower s) = true) ss.
Proof.
  rewrite cause_effect_pairs_filter. unfold enumerate.
  apply (snd_filter_zip (fun s => contains "because" (lower s))).
  apply length_seq.
Qed.

Section QuantizerMore.
#[local] Open Scope Z_scope.









(** X13. Quantizing keeps the shape: as many rows as there are embedding
    rows, each as long as its source row, with every entry in 0..255. *)
Theorem quantized_embeddings_shape (E : list (list Q)) :
  length (quantized_embeddings E) = length E
  /\ Forall2 (fun q vec => length q = length vec
                           /\ Forall (fun n => 0 <= n <= 255) q)
       (quantized_embeddings E) E.
Proof.
  rewrite quantized_embeddings_map. split; [apply length_map |].
  induction E as [|vec E IH]; simpl; constructor; [| done].
  split; [apply length_map | apply quantize_vec_range].
Qed.

End QuantizerMore.

Lemma length_sharing_from tokens (ss : list string) (a k : nat) :
  a + k = length ss ->
  2 * length (i ← seq a k;
              pair i <$> filter (fun j => share tokens ss i j)
                           (seq (S i) (length ss - S i)))
  <= k * (k - 1).
Proof.
  revert a. induction k as [|k IH]; intros a Hk; cbn [seq]; [simpl; lia |].
  rewrite bind_cons, length_app, length_fmap.
  specialize (IH (S a) ltac:(lia)).
  pose proof (length_filter (fun j => share tokens ss a j)
                (seq (S a) (length ss - S a))) as Hf.
  rewrite length_seq in Hf. nia.
Qed.

(** X4. n sentences give at most n(n-1)/2 edges, and fewer than two
    sentences give none. *)
Theorem edges_count tokens (ss : list string) :
  2 * length (edges (relation_graph tokens ss)) <= length ss * (length ss - 1)
  /\ (length ss <= 1 -> edges (relation_graph tokens ss) = []).
Proof.
  rewrite edges_sharing_pairs.
  pose proof (length_sharing_from tokens ss 0 (length ss) eq_refl) as H.
  split; [exact H |]. intros Hn.
  apply length_zero_iff_nil. unfold sharing_pairs. nia.
Qed.

(** X5. The edges depend on the tagger through the noun sets of the
    sentences only: two taggers that give every sentence the same noun set
    give the same edge list. *)
Theorem edges_by_noun_sets tokens1 tokens2 (ss : list string) :
  (forall s, s ∈ ss -> nouns tokens1 s = nouns tokens2 s) ->
  edges (relation_graph tokens1 ss) = edges (relation_graph tokens2 ss).
Proof.
  intros H. rewrite !edges_sharing_pairs. by apply sharing_pairs_ext.
Qed.

Section RunFacts.
Variable sents : string -> list string.
Variable tokens : string -> list Token.
Variable encode : list string -> ndarray.

Lemma run_inv paragraph out :
  run sents tokens encode paragraph = Ok out ->
  exists D row rest,
    shape (encode (sentences sents paragraph)) !! 1 = Some D
    /\ data (encode (sentences sents paragraph)) = row :: rest
    /\ out = mkOutput (sentences sents paragraph)
          (cause_effect_pairs (sentences sents paragraph)).*2
          (edges (relation_graph tokens (sentences sents paragraph)))
          (strip paragraph)
          (take 10 (quantize_vec row)).
Proof.
  unfold run, getitem. rewrite quantized_embeddings_map.
  destruct (shape (encode (sentences sents paragraph)) !! 1) as [D|] eqn:HD;
    [| discriminate].
  destruct (data (encode (sentences sents paragraph))) as [|row rest] eqn:Hd;
    [discriminate |].
  simpl. intros H. injection H as <-. by exists D, row, rest.
Qed.

(** X6. The run returns a record exactly when the embedding array has a
    second dimension and at least one row; otherwise, and only then, it
    raises IndexError. *)
Theorem run_outcome (paragraph : string) :
  let E := encode (sentences sents paragraph) in
  ((exists out, run sents tokens encode paragraph = Ok out) <->
     2 <= length (shape E) /\ data E ≠ [])
  /\ (run sents tokens encode paragraph = Raise IndexError <->
      length (shape E) < 2 \/ data E = []).
Proof.
  cbv zeta. unfold run, getitem. rewrite quantized_embeddings_map.
  destruct (shape (encode (sentences sents paragraph)) !! 1) as [D|] eqn:HD.
  - apply lookup_lt_Some in HD.
    destruct (data (encode (sentences sents paragraph))) as [|row rest]; simpl.
    + split; split.
      * intros [out H]. discriminate H.
      * intros [_ H]. done.
      * by right.
      * done.
    + split; split.
      * intros _. split; [lia | done].
      * intros _. eauto.
      * discriminate.
      * intros [H | H]; [lia | discriminate].
  - apply lookup_ge_None in HD. simpl. split; split.
    + intros [out H]. discriminate H.
    + intros [H _]. lia.
    + intros _. left. lia.
    + done.
Qed.

(** X7. In a returned record the sentences are the kept sentences, the
    edges are the sharing pairs in nested-loop order, and every edge (i, j)
    has i < j < number of sentences. *)
Theorem run_graph_edges (paragraph : string) (out : StructuredOutput) :
  run sents tokens encode paragraph = Ok out ->
  segmented_sentences out = sentences sents paragraph
  /\ graph_edges out = sharing_pairs tokens (segmented_sentences out)
  /\ Forall (fun e => e.1 < e.2 /\ e.2 < length (segmented_sentences out))
       (graph_edges out).
Proof.
  intros Hrun. apply run_inv in Hrun as (D & row & rest & _ & _ & ->). simpl.
  split; [done |]. split; [apply edges_sharing_pairs |].
  apply Forall_forall. intros [i j] Hij.
  apply elem_of_edges_relation_graph in Hij. simpl. tauto.
Qed.

(** X8. In a returned record the cause-effect sentences are the sentences
    whose lowercased text contains "because", in sentence order and as
    often as they occur. *)
Theorem run_cause_effect_sentences (paragraph : string)
    (out : StructuredOutput) :
  run sents tokens encode paragraph = Ok out ->
  cause_effect_sentences out
  = filter (fun s => contains "because" (lower s) = true)
      (segmented_sentences out)
  /\ sublist (cause_effect_sentences out) (segmented_sentences out).
Proof.
  intros Hrun. apply run_inv in Hrun as (D & row & rest & _ & _ & ->). simpl.
  rewrite cause_effect_sentences_filter. split; [done | apply sublist_filter].
Qed.

(** X9. In a returned record the memory reference is the paragraph
    without the whitespace at its two ends: the paragraph is blanks, then
    the reference, then blanks; the reference neither starts nor ends with
    a whitespace character; and it is empty exactly when the paragraph is
    blank. *)
Theorem run_memory_reference (paragraph : string) (out : StructuredOutput) :
  run sents tokens encode paragraph = Ok out ->
  memory_reference out = strip paragraph
  /\ (exists l r, paragraph = l +:+ memory_reference out +:+ r
                  /\ blank l /\ blank r)
  /\ (forall c t, memory_reference out = String c t -> isspace c = false)
  /\ (forall t c, memory_reference out = t +:+ String c "" ->
        isspace c = false)
  /\ (memory_reference out = "" <-> blank paragraph).
Proof.
  intros Hrun. apply run_inv in Hrun as (D & row & rest & _ & _ & ->). simpl.
  destruct (strip_spec paragraph) as (Hsplit & Hfirst & Hlast & _).
  split; [done |]. split; [done |]. split; [done |]. split; [done |].
  apply strip_empty.
Qed.

End RunFacts.

Section Binary32Facts.
#[local] Open Scope Z_scope.
Import SpecFloat.

Lemma shr_1_nonneg mrs : 0 <= shr_m mrs -> 0 <= shr_m (shr_1 mrs).
Proof.
  destruct mrs as [m r s]. simpl. intros Hm.
  destruct m as [|p|p]; [done | | lia]. destruct p; simpl; lia.
Qed.

Lemma iter_shr_1_nonneg p mrs :
  0 <= shr_m mrs -> 0 <= shr_m (iter_pos shr_1 p mrs).
Proof.
  revert mrs. induction p as [p IH|p IH|]; intros mrs Hm; simpl.
  - apply IH, IH, shr_1_nonneg, Hm.
  - apply IH, IH, Hm.
  - by apply shr_1_nonneg.
Qed.

Lemma shr_fexp_nonneg prec emax m e l :
  0 <= m -> 0 <= shr_m (shr_fexp prec emax m e l).1.
Proof.
  intros Hm. unfold shr_fexp, shr.
  assert (0 <= shr_m (shr_record_of_loc m l)) as H0.
  { by destruct l as [|[]]. }
  destruct (fexp prec emax (Zdigits2 m + e) - e); simpl; try done.
  by apply iter_shr_1_nonneg.
Qed.

Lemma round_nearest_even_nonneg m l : 0 <= m -> 0 <= round_nearest_even m l.
Proof.
  intros Hm. destruct l as [|[]]; simpl; try lia.
  destruct (Z.even m); lia.
Qed.

Lemma binary_round_aux_not_nan prec emax sx mx ex lx :
  0 <= mx -> binary_round_aux prec emax sx mx ex lx <> S754_nan.
Proof.
  intros Hm. unfold binary_round_aux.
  pose proof (shr_fexp_nonneg prec emax mx ex lx Hm) as H1.
  destruct (shr_fexp prec emax mx ex lx) as [mrs' e']. simpl in H1.
  pose proof (shr_fexp_nonneg prec emax
    (round_nearest_even (shr_m mrs') (loc_of_shr_record mrs')) e' loc_Exact
    (round_nearest_even_nonneg _ _ H1)) as H2.
  destruct (shr_fexp prec emax _ e' loc_Exact) as [mrs'' e'']. simpl in H2.
  destruct (shr_m mrs''); [done | | lia].
  by destruct (e'' <=? emax - prec).
Qed.

Lemma binary_normalize_not_nan prec emax m e sz :
  binary_normalize prec emax m e sz <> S754_nan.
Proof.
  unfold binary_normalize, binary_round. destruct m as [|p|p]; [done | |].
  - destruct (shl_align _ _ _). by apply binary_round_aux_not_nan.
  - destruct (shl_align _ _ _). by apply binary_round_aux_not_nan.
Qed.

Lemma scaled_not_nan v : v <> S754_nan -> Binary32.scaled v <> S754_nan.
Proof.
  intros Hv. unfold Binary32.scaled.
  assert (SFadd Binary32.prec Binary32.emax v (Binary32.of_Z 1 0) <> S754_nan)
    as Hadd.
  { destruct v as [s|s| |s m e]; try done.
    change (Binary32.of_Z 1 0) with (S754_finite false 8388608 (-23)).
    unfold SFadd. apply binary_normalize_not_nan. }
  change (Binary32.of_Z 255 (-1)) with (S754_finite false 16711680 (-17)).
  destruct (SFadd Binary32.prec Binary32.emax v (Binary32.of_Z 1 0))
    as [s|s| |s m e]; try done.
  unfold SFmul. by apply binary_round_aux_not_nan.
Qed.

Lemma clip_defined x :
  x <> S754_nan ->
  exists n, Binary32.astype_uint8
              (Binary32.clip x (Binary32.of_Z 0 0) (Binary32.of_Z 255 0))
            = Some n /\ 0 <= n <= 255.
Proof.
  intros Hx.
  assert (forall y, (exists n, Binary32.astype_uint8 y = Some n) ->
            exists n, Binary32.astype_uint8 y = Some n /\ 0 <= n <= 255) as Hr.
  { intros y [n Hn]. exists n. split; [done |].
    destruct y as [s|s| |s m e]; simpl in Hn; try discriminate;
      injection Hn as <-; [lia |].
    match goal with |- 0 <= ?a mod 256 <= 255 =>
      pose proof (Z.mod_pos_bound a 256 ltac:(lia)) end. lia. }
  apply Hr.
  change (Binary32.of_Z 0 0) with (S754_zero false).
  change (Binary32.of_Z 255 0) with (S754_finite false 16711680 (-16)).
  unfold Binary32.clip, Binary32.maximum, Binary32.minimum.
  destruct x as [s|s| |s m e]; [| | done |].
  - simpl. eauto.
  - destruct s; simpl; eauto.
  - simpl Binary32.is_nan. cbv iota.
    destruct (SFltb (S754_finite s m e) (S754_zero false)); simpl.
    + eauto.
    + destruct (SFltb _ _); simpl; eauto.
Qed.

(** X15. In binary32 every component but NaN has a quantized value, in
    0..255: the clip leaves no infinity for the cast, plus infinity gives
    255 and minus infinity 0. The cast of NaN is left undefined. *)
Theorem binary32_quantize_defined (v : spec_float) :
  (v <> S754_nan ->
   exists n, Binary32.quantize v = Some n /\ 0 <= n <= 255)
  /\ Binary32.quantize S754_nan = None
  /\ Binary32.quantize (S754_infinity false) = Some 255
  /\ Binary32.quantize (S754_infinity true) = Some 0.
Proof.
  split; [| repeat split; vm_compute; reflexivity].
  intros Hv. apply clip_defined, scaled_not_nan, Hv.
Qed.
End Binary32Facts.


(** ** Instances of the further statements *)

Lemma edges_count_witness :
  edges (relation_graph toy_tokens ["Go."]) = [].
Proof. apply (edges_count toy_tokens ["Go."]). simpl. lia. Defined.

Lemma edges_by_noun_sets_witness :
  edges (relation_graph toy_tokens ["Cats sit on mats."; "Mats are soft."])
  = edges (relation_graph toy_tokens2 ["Cats sit on mats."; "Mats are soft."]).
Proof.
  apply (edges_by_noun_sets toy_tokens toy_tokens2
           ["Cats sit on mats."; "Mats are soft."]).
  intros s Hs. apply elem_of_cons in Hs as [-> | Hs]; [vm_compute; reflexivity |].
  apply elem_of_cons in Hs as [-> | Hs]; [vm_compute; reflexivity |].
  by apply elem_of_nil in Hs.
Defined.

Lemma run_graph_edges_witness :
  exists out,
    run toy_sents toy_tokens toy_encode "Cats sit on mats. Mats are soft."
    = Ok out
    /\ segmented_sentences out
       = sentences toy_sents "Cats sit on mats. Mats are soft."
    /\ graph_edges out = sharing_pairs toy_tokens (segmented_sentences out)
    /\ Forall (fun e => e.1 < e.2 /\ e.2 < length (segmented_sentences out))
         (graph_edges out).
Proof.
  eexists. split; [reflexivity |].
  apply (run_graph_edges toy_sents toy_tokens toy_encode
           "Cats sit on mats. Mats are soft."). reflexivity.
Defined.

Lemma run_cause_effect_sentences_witness :
  exists out,
    run toy_sents toy_tokens toy_encode "Cats sit on mats. Mats are soft."
    = Ok out
    /\ cause_effect_sentences out
       = filter (fun s => contains "because" (lower s) = true)
           (segmented_sentences out)
    /\ sublist (cause_effect_sentences out) (segmented_sentences out).
Proof.
  eexists. split; [reflexivity |].
  apply (run_cause_effect_sentences toy_sents toy_tokens toy_encode
           "Cats sit on mats. Mats are soft."). reflexivity.
Defined.

Lemma run_memory_reference_witness :
  exists out,
    run toy_sents toy_tokens toy_encode "  Cats sit on mats. Mats are soft. "
    = Ok out
    /\ memory_reference out = "Cats sit on mats. Mats are soft.".
Proof.
  eexists. split; [reflexivity |].
  apply (run_memory_reference toy_sents toy_tokens toy_encode
           "  Cats sit on mats. Mats are soft. "). reflexivity.
Defined.



Lemma binary32_quantize_defined_witness :
  exists n, Binary32.quantize (Binary32.of_Z 1 0) = Some n /\ (0 <= n <= 255)%Z.
Proof.
  apply (binary32_quantize_defined (Binary32.of_Z 1 0)). discriminate.
Defined.

(** ** Quantization under a monotone rounding *)

Lemma round_grid_mono x y : (x <= y)%Q -> (round_grid x <= round_grid y)%Q.
Proof.
  intros H. unfold round_grid, Qdiv.
  apply Qmult_le_compat_r; [| discriminate].
  rewrite <- Zle_Qle. apply Qfloor_resp_le.
  apply Qmult_le_compat_r; [exact H | discriminate].
Qed.

(** X14. Whatever monotone rounding is applied to the sum and to the
    product of line 119, as a floating-point format does, the quantized
    value stays in 0..255 and a smaller component never gets a larger
    value. *)
Theorem quantize_rounded (rnd : Q -> Q) (v1 v2 : Q) :
  (forall x y, (x <= y)%Q -> (rnd x <= rnd y)%Q) ->
  (v1 <= v2)%Q ->
  (0 <= quantize_rnd rnd v1 <= 255)%Z
  /\ (quantize_rnd rnd v1 <= quantize_rnd rnd v2)%Z.
Proof.
  intros Hrnd Hv. unfold quantize_rnd. rewrite !astype_uint8_clip.
  split; [apply Qfloor_clip_range |].
  apply Qfloor_resp_le, clip_mono. unfold scaled_rnd. apply Hrnd.
  apply Qmult_le_l; [reflexivity |]. apply Hrnd, Qplus_le_l, Hv.
Qed.

Lemma quantize_rounded_witness :
  (0 <= quantize_rnd round_grid (1 # 4) <= 255)%Z
  /\ (quantize_rnd round_grid (1 # 4) <= quantize_rnd round_grid (1 # 3))%Z.
Proof.
  apply (quantize_rounded round_grid (1 # 4) (1 # 3)).
  - apply round_grid_mono.
  - discriminate.
Defined.

